(** * node-pg-connection-pool: a model of [index.js] and of the pool engine it drives

    The facade [PgPool] of [index.js] is embedded function by function.  Its
    collaborators that live outside the repository's sources (the pool
    engine, the retry helper, the database client) are either parameters of
    the model ([backend]) or small state machines written after the
    specification; each of those says so in its comment. *)

From stdpp Require Import base list strings gmap.

Set Default Proof Using "Type".

(** ** Values *)

(** Values that flow through promises at run time.  A connected client is
    known by its identity; an [Error] instance by its [name] and [message]. *)
Inductive value :=
| VUndefined
| VClient (id : nat)
| VError (name message : string)
| VResult (rows : list string).

#[global] Instance value_eq_dec : EqDecision value.
Proof. solve_decision. Defined.

(** [client instanceof Error] *)
Definition instanceof_Error (v : value) : bool :=
  match v with VError _ _ => true | _ => false end.

(** Option values handed to the constructor: plain data, functions that
    return when called ([OFun]), functions that throw when called
    ([OThrows]), and objects. *)
#[warnings="-register-all"]
Inductive optval :=
| OUndefined
| ONull
| OBool (b : bool)
| ONum (n : Z)
| OStr (s : string)
| OFun (handle : nat)
| OThrows (err : value)
| OObj (fields : gmap string optval).

(** JavaScript truthiness, as used by [options.name || ...] and [!logger]. *)
Definition truthy (v : optval) : bool :=
  match v with
  | OUndefined | ONull => false
  | OBool b => b
  | ONum n => negb (n =? 0)%Z
  | OStr s => negb (String.eqb s "")
  | OFun _ | OThrows _ | OObj _ => true
  end.

(** ** Promises and completions *)

(** How a promise ends: fulfilled, rejected, or never settled. *)
Inductive settled (A : Type) :=
| Fulfilled (a : A)
| Rejected (e : value)
| Unsettled.
Arguments Fulfilled {A} a.
Arguments Rejected {A} e.
Arguments Unsettled {A}.

(** How a synchronous piece of code ends. *)
Inductive completion (A : Type) :=
| Normal (a : A)
| Throw (e : value).
Arguments Normal {A} a.
Arguments Throw {A} e.

(** A promise-returning computation over a state [S], run to settlement. *)
Definition promise (S A : Type) : Type := S → S * settled A.

(** [p.then(f)]: a rejection or a promise that never settles skips [f]. *)
Definition then_ {S A B} (p : promise S A) (f : A → promise S B) : promise S B :=
  λ s, match p s with
       | (s', Fulfilled a) => f a s'
       | (s', Rejected e) => (s', Rejected e)
       | (s', Unsettled) => (s', Unsettled)
       end.

(** [p.catch(h)] *)
Definition catch_ {S A} (p : promise S A) (h : value → promise S A) : promise S A :=
  λ s, match p s with
       | (s', Rejected e) => h e s'
       | other => other
       end.

(** What running a [new Promise(executor)] body leaves behind: the first
    call of [resolve] or [reject] made on its behalf (now or from a callback
    it registered), and how the body itself completed. *)
Record executed (A : Type) := Executed {
  first_call : option (settled A);
  body : completion unit
}.
Arguments Executed {A} _ _.
Arguments first_call {A} _.
Arguments body {A} _.

(** [new Promise(executor)]: the first settle call wins; a body that throws
    before any call rejects the promise; otherwise it never settles. *)
Definition new_Promise {S A} (executor : S → S * executed A) : promise S A :=
  λ s, let '(s', x) := executor s in
       (s', match first_call x with
            | Some o => o
            | None => match body x with
                      | Throw e => Rejected e
                      | Normal _ => Unsettled
                      end
            end).

(** ** The world outside the pool *)

(** What the process has done so far. *)
Inductive entry :=
| Connect (attempt : nat)
| Debug (msg : string)
| Logger (method : string) (callee : optval) (msg : string)
| PoolRelease (v : value)
| ClientQuery (id : nat) (q : string)
| ClientEnd (id : nat).

Record world := World {
  attempts : nat;          (* calls of [create] made so far *)
  journal : list entry     (* newest entry last *)
}.

Definition record (e : entry) (w : world) : world :=
  World (attempts w) (journal w ++ [e]).

Inductive connect_outcome :=
| ConnReady
| ConnError (err : value)
| ConnSilent.

Inductive end_outcome :=
| EndCallsBack
| EndThrows (err : value)
| EndSilent.

(** The database side: what the [n]th connection attempt does, what a query
    on a client does, what [client.end] does, and whether [pg.native] is
    there. *)
Record backend := Backend {
  pg_has_native : bool;
  connect_result : optval → nat → connect_outcome;
  query_result : nat → string → settled value;
  end_result : nat → end_outcome
}.

(** [o.key] on an option value. *)
Definition get_field (o : optval) (key : string) : completion optval :=
  match o with
  | OUndefined | ONull =>
      Throw (VError "TypeError" "Cannot read properties of undefined")
  | OObj fields => Normal (default OUndefined (fields !! key))
  | _ => Normal OUndefined
  end.

(** [v === true] *)
Definition is_true (v : optval) : bool :=
  match v with OBool true => true | _ => false end.

(** ** The pool object *)

(** The fields the constructor stores on [this]. *)
Record PgPool_this := This {
  name : optval;
  pgOptions : optval;
  poolOptions : optval;
  logger : gmap string optval
}.

(** The function every default logger method is: [function () {}]. *)
Definition noop : optval := OFun 0.

(** The own enumerable properties [Object.assign] copies from a source (the
    indexed characters of a string source are left out: none is a method
    name). *)
Definition own_fields (v : optval) : gmap string optval :=
  match v with OObj fields => fields | _ => ∅ end.

(** [injectLogger(logger)]: the given methods over the five no-op defaults. *)
Definition injectLogger (logger : optval) : gmap string optval :=
  let logger := if truthy logger then logger else OObj ∅ in
  own_fields logger ∪
  list_to_map [("log", noop); ("debug", noop); ("info", noop);
               ("warn", noop); ("error", noop)].

(** [debug(msg, ...)]: the [debug] package's function returns normally. *)
Definition debug (msg : string) (w : world) : world := record (Debug msg) w.

Definition not_a_function (what : string) : value :=
  VError "TypeError" (what +:+ " is not a function").

(** What [this.logger.method(...)] throws, if anything: nothing when the
    injected logger holds a function that returns, that function's
    exception when it throws, a [TypeError] when the value kept under the
    method is not a function at all. *)
Definition logger_raises (this : PgPool_this) (method : string) : option value :=
  match default OUndefined (logger this !! method) with
  | OFun _ => None
  | OThrows err => Some err
  | _ => Some (not_a_function ("this.logger." +:+ method))
  end.

(** What the call leaves in the journal: the call and the function it
    reached, or nothing when there was no function to call. *)
Definition logger_lines (this : PgPool_this) (method msg : string) : list entry :=
  match default OUndefined (logger this !! method) with
  | OFun h => [Logger method (OFun h) msg]
  | OThrows err => [Logger method (OThrows err) msg]
  | _ => []
  end.

(** [this.logger.method(msg, ...)] *)
Definition logger_call (this : PgPool_this) (method msg : string)
  : world → world * completion unit :=
  λ w, (World (attempts w) (journal w ++ logger_lines this method msg),
        match logger_raises this method with
        | None => Normal ()
        | Some err => Throw err
        end).

Arguments logger_raises : simpl never.
Arguments logger_lines : simpl never.

(** ** Connecting: [create] *)

Definition native_missing : value :=
  VError "Error" "Native bindings not available. Make sure pg-native is installed.".

(** [create(pgOptions)], lines 24-55.  The client built by the [n]th call of
    [create] in this process is [VClient n]; [client.connect] answers through
    its callback or through the client's error event. *)
Definition create (B : backend) (pgOptions : optval) : promise world value :=
  λ w,
  let n := attempts w in
  new_Promise (λ w,
    match get_field pgOptions "native" with
    | Throw e => (w, Executed None (Throw e))
    | Normal native =>
        if is_true native && negb (pg_has_native B)
        then (w, Executed None (Throw native_missing))
        else
          let client := VClient n in
          let w := record (Connect n) w in
          match connect_result B pgOptions n with
          | ConnReady => (w, Executed (Some (Fulfilled client)) (Normal ()))
          | ConnError err => (w, Executed (Some (Rejected err)) (Normal ()))
          | ConnSilent => (w, Executed None (Normal ()))
          end
    end) (World (S n) (journal w)).

(** ** Retrying: [retry-as-promised] *)

(** Modelled from the spec: the retry helper [retry-as-promised] is a
    dependency that is not under src/.  It runs the callback; a rejection is
    retried until [max] runs have been made, and the last rejection is then
    the outcome; a fulfilled run ends it at once (the pauses between runs
    change no state). *)
Fixpoint retry {S A} (callback : promise S A) (max : nat) : promise S A :=
  λ s, match max with
       | 0 => callback s
       | S 0 => callback s
       | S more => match callback s with
                   | (s', Rejected _) => retry callback more s'
                   | settled_run => settled_run
                   end
       end.

(** ** The factory *)

Definition CONN_FAILED : value := VError "Error" "CONN_FAILED".

(** The function given to [retry] in [factory.create], lines 83-95; the
    state pairs the closure variable [createAttempts] with the world. *)
Definition create_callback (B : backend) (options_pgOptions : optval)
  : promise (nat * world) value :=
  λ '(createAttempts, w),
    let createAttempts := S createAttempts in
    if 3 <? createAttempts then
      let err := CONN_FAILED in
      let w := debug "Max conn createAttempts reached: %s, resolving to error:" w in
      let createAttempts := 0 in
      ((createAttempts, w), Fulfilled err)
    else
      let '(w', r) := create B options_pgOptions w in
      ((createAttempts, w'), r).

(** [factory.create], lines 76-100. *)
Definition factory_create (B : backend) (this : PgPool_this) : promise world value :=
  λ w, let createAttempts := 0 in
       let '((_, w'), r) := retry (create_callback B (pgOptions this)) 10 (createAttempts, w) in
       (w', r).

(** [client.end]: only a connected client has the method. *)
Definition client_end (B : backend) (client : value) : option end_outcome :=
  match client with
  | VClient id => Some (end_result B id)
  | _ => None
  end.

Definition closed_msg : string :=
  "Client conn closed. Available count : %s. Pool size: %s".

(** [factory.destroy], lines 101-118: the executor takes [resolve] only and
    wraps its body in [try]/[catch]; the [catch] block itself calls the
    logger, outside any [try].  The callback given to [client.end] runs
    once the connection has closed, after the executor has returned or
    thrown. *)
Definition factory_destroy (B : backend) (this : PgPool_this) (client : value)
  : promise world value :=
  new_Promise (λ w,
    let catch_block (later : option (settled value)) (w : world) :=
      let w := debug "Failed to destroy connection" w in
      let '(w, logged) := logger_call this "error" "Failed to destroy connection" w in
      match logged with
      | Normal _ => (w, Executed later (Normal ()))
      | Throw err => (w, Executed None (Throw err))
      end in
    let after_end (later : option (settled value)) (w : world) :=
      let w := debug closed_msg w in
      let '(w, logged) := logger_call this "log" closed_msg w in
      match logged with
      | Normal _ => (w, Executed later (Normal ()))
      | Throw _ => catch_block later w
      end in
    match client_end B client with
    | None => catch_block None w
    | Some how =>
        let w := match client with VClient id => record (ClientEnd id) w | _ => w end in
        match how with
        | EndCallsBack => after_end (Some (Fulfilled VUndefined)) w
        | EndThrows err => catch_block None w
        | EndSilent => after_end None w
        end
    end).

(** ** The pool engine *)

(** Modelled from the spec: the pool engine ([generic-pool]) is a dependency
    that is not under src/.  This module follows sections 3 and 4.2 of the
    specification: resources are idle, active or being created; [size]
    counts all three; an acquire takes an idle resource, else starts a
    creation while [size < max], else waits in the queue; a release hands
    the resource to the next waiting request or makes it idle; a queued
    request can time out; a destroyed resource is replaced while the pool is
    below [min]. *)
Module Engine.

Record config := Config {
  min : nat;
  max : nat;
  acquireTimeoutMillis : option nat      (* [None]: wait indefinitely *)
}.

Record request := Request {
  rid : nat;                             (* arrival number *)
  priority : nat                         (* 0 is served first *)
}.

Record t := Make {
  cfg : config;
  idle : list value;                     (* oldest first *)
  active : list value;
  creating : list (option nat);          (* creations in flight, each for a
                                            request or for the floor *)
  waiting : list request;                (* arrival order *)
  next_rid : nat
}.

Definition size (e : t) : nat :=
  length (idle e) + length (active e) + length (creating e).
Definition available (e : t) : nat := length (idle e).
Definition pending (e : t) : nat := length (waiting e).
Definition borrowed (e : t) : nat := length (active e).

(** What a request is told, by arrival number. *)
Definition delivery : Type := nat * settled value.

Definition not_member : value :=
  VError "Error" "Resource not currently part of this pool".
Definition timed_out : value :=
  VError "TimeoutError" "ResourceRequest timed out".

(** A new pool starts creating its [min] resources. *)
Definition createPool (c : config) : t :=
  Make c [] [] (replicate (min c) None) [] 0.

(** The request served next: the most urgent, the oldest among equals. *)
Fixpoint next_request (l : list request) : option request :=
  match l with
  | [] => None
  | r :: l' =>
      match next_request l' with
      | Some r' => if priority r' <? priority r then Some r' else Some r
      | None => Some r
      end
  end.

Definition without (r : nat) (l : list request) : list request :=
  filter (λ q, rid q ≠ r) l.

(** Remove one occurrence of a resource. *)
Fixpoint remove1 (v : value) (l : list value) : list value :=
  match l with
  | [] => []
  | x :: l' => if decide (x = v) then l' else x :: remove1 v l'
  end.

(** A free resource goes to the next waiting request, else to the idle set. *)
Definition dispense (v : value) (e : t) : t * list delivery :=
  match next_request (waiting e) with
  | Some r =>
      (Make (cfg e) (idle e) (v :: active e) (creating e)
            (without (rid r) (waiting e)) (next_rid e),
       [(rid r, Fulfilled v)])
  | None =>
      (Make (cfg e) (idle e ++ [v]) (active e) (creating e)
            (waiting e) (next_rid e), [])
  end.

Inductive acquired :=
| Dispensed (v : value)
| MustCreate
| Queued.

(** [acquire(priority)]; the request's arrival number is [next_rid e]. *)
Definition acquire (prio : nat) (e : t) : t * acquired :=
  let r := next_rid e in
  match idle e with
  | v :: rest =>
      (Make (cfg e) rest (v :: active e) (creating e) (waiting e) (S r),
       Dispensed v)
  | [] =>
      if size e <? max (cfg e) then
        (Make (cfg e) [] (active e) (creating e ++ [Some r]) (waiting e) (S r),
         MustCreate)
      else
        (Make (cfg e) [] (active e) (creating e)
              (waiting e ++ [Request r prio]) (S r),
         Queued)
  end.

(** The [i]th creation in flight ends with a resource. *)
Definition create_done (i : nat) (v : value) (e : t) : t * list delivery :=
  match creating e !! i with
  | None => (e, [])
  | Some (Some r) =>
      (Make (cfg e) (idle e) (v :: active e) (delete i (creating e))
            (waiting e) (next_rid e),
       [(r, Fulfilled v)])
  | Some None =>
      dispense v (Make (cfg e) (idle e) (active e) (delete i (creating e))
                       (waiting e) (next_rid e))
  end.

(** The [i]th creation in flight fails for good. *)
Definition create_failed (i : nat) (err : value) (e : t) : t * list delivery :=
  match creating e !! i with
  | None => (e, [])
  | Some who =>
      (Make (cfg e) (idle e) (active e) (delete i (creating e))
            (waiting e) (next_rid e),
       match who with Some r => [(r, Rejected err)] | None => [] end)
  end.

(** [release(resource)]: what the caller is told, and what waiting
    requests are told. *)
Definition release (v : value) (e : t) : t * settled value * list delivery :=
  if decide (v ∈ active e) then
    let '(e', out) :=
      dispense v (Make (cfg e) (idle e) (remove1 v (active e)) (creating e)
                       (waiting e) (next_rid e)) in
    (e', Fulfilled VUndefined, out)
  else (e, Rejected not_member, []).

(** The timer of request [r] fires. *)
Definition timeout (r : nat) (e : t) : t * list delivery :=
  match acquireTimeoutMillis (cfg e) with
  | None => (e, [])
  | Some _ =>
      if decide (r ∈ rid <$> waiting e) then
        (Make (cfg e) (idle e) (active e) (creating e)
              (without r (waiting e)) (next_rid e),
         [(r, Rejected timed_out)])
      else (e, [])
  end.

(** Replace a removed resource while the pool is below its floor. *)
Definition ensure_minimum (e : t) : t :=
  if size e <? min (cfg e) then
    Make (cfg e) (idle e) (active e) (creating e ++ [None])
         (waiting e) (next_rid e)
  else e.

(** [destroy(resource)] *)
Definition destroy (v : value) (e : t) : t * settled value :=
  if decide (v ∈ active e) then
    (ensure_minimum (Make (cfg e) (idle e) (remove1 v (active e)) (creating e)
                          (waiting e) (next_rid e)),
     Fulfilled VUndefined)
  else if decide (v ∈ idle e) then
    (ensure_minimum (Make (cfg e) (remove1 v (idle e)) (active e) (creating e)
                          (waiting e) (next_rid e)),
     Fulfilled VUndefined)
  else (e, Rejected not_member).

(** Everything that can happen to a pool. *)
Inductive op :=
| Acquire (prio : nat)
| Release (v : value)
| CreateDone (i : nat) (v : value)
| CreateFailed (i : nat) (err : value)
| Timeout (r : nat)
| Destroy (v : value).

Definition step (e : t) (o : op) : t * list delivery :=
  match o with
  | Acquire prio =>
      let '(e', a) := acquire prio e in
      (e', match a with
           | Dispensed v => [(next_rid e, Fulfilled v)]
           | _ => []
           end)
  | Release v => let '(e', _, out) := release v e in (e', out)
  | CreateDone i v => create_done i v e
  | CreateFailed i err => create_failed i err e
  | Timeout r => timeout r e
  | Destroy v => ((destroy v e).1, [])
  end.

(** Run a history, collecting what requests were told. *)
Fixpoint run (e : t) (ops : list op) : t * list delivery :=
  match ops with
  | [] => (e, [])
  | o :: ops' =>
      let '(e1, out1) := step e o in
      let '(e2, out2) := run e1 ops' in
      (e2, out1 ++ out2)
  end.

End Engine.

(** ** The facade: [PgPool] *)

(** A running pool: the engine behind [this.pool], the world, and what the
    engine has told requests other than the one being followed. *)
Record sys := Sys {
  pool : Engine.t;
  wld : world;
  outbox : list Engine.delivery
}.

(** [_.pick(options, keys)] *)
Definition pick (options : optval) (keys : list string) : gmap string optval :=
  filter (λ kv, kv.1 ∈ keys) (own_fields options).

Definition read_number (o : optval) (key : string) : option nat :=
  match own_fields o !! key with
  | Some (ONum n) => if (0 <=? n)%Z then Some (Z.to_nat n) else None
  | _ => None
  end.

(** Modelled from the spec: reading the pool options is the engine's work
    and is not under src/.  Section 3 of the specification gives the ranges
    ([min] at least 0, [max] at least [min], no time-out when absent or 0);
    without options the pool has no floor and room for one resource. *)
Definition read_config (poolOptions : optval) : Engine.config :=
  let max := Nat.max (default 1 (read_number poolOptions "max")) 1 in
  let min := Nat.min (default 0 (read_number poolOptions "min")) max in
  Engine.Config min max
    (match read_number poolOptions "acquireTimeoutMillis" with
     | Some 0 => None
     | given => given
     end).

(** The constructor, lines 66-133; [random] is the text
    [Math.random().toString(36).substr(2, 10)] of this call. *)
Definition PgPool (random : string) (options : optval) : PgPool_this * Engine.t :=
  let options := pick options ["name"; "pgOptions"; "poolOptions"; "logger"] in
  let field key := default OUndefined (options !! key) in
  let this :=
    This (if truthy (field "name") then field "name" else OStr ("pgPool-" +:+ random))
         (field "pgOptions")
         (field "poolOptions")
         (injectLogger (field "logger")) in
  (this, Engine.createPool (read_config (poolOptions this))).

(** What request [r] was told, if anything yet. *)
Fixpoint told (r : nat) (out : list Engine.delivery) : settled value :=
  match out with
  | [] => Unsettled
  | (r', o) :: out' => if decide (r' = r) then o else told r out'
  end.

(** The handler of the engine's "factoryCreateError" event, lines 125-128;
    what the engine does with an exception of the handler is not in these
    sources, the world the handler leaves is kept. *)
Definition on_factoryCreateError (this : PgPool_this) (w : world) : world :=
  let w := debug "Errored while connecting Postgres" w in
  (logger_call this "error" "Errored while connecting Postgres" w).1.

(** [this.pool.acquire(priority)]: a creation the engine starts for the
    request is carried out by [factory.create] before anything else
    happens to the pool. *)
Definition pool_acquire (B : backend) (this : PgPool_this) (priority : option nat)
  : promise sys value :=
  λ s,
  let r := Engine.next_rid (pool s) in
  let i := length (Engine.creating (pool s)) in
  let '(e, a) := Engine.acquire (default 0 priority) (pool s) in
  match a with
  | Engine.Dispensed v => (Sys e (wld s) (outbox s), Fulfilled v)
  | Engine.Queued => (Sys e (wld s) (outbox s), Unsettled)
  | Engine.MustCreate =>
      let '(w, made) := factory_create B this (wld s) in
      match made with
      | Fulfilled v =>
          let '(e, out) := Engine.create_done i v e in
          (Sys e w (outbox s), told r out)
      | Rejected err =>
          let '(e, out) := Engine.create_failed i err e in
          (Sys e (on_factoryCreateError this w) (outbox s), told r out)
      | Unsettled => (Sys e w (outbox s), Unsettled)
      end
  end.

(** [this.pool.release(client)] *)
Definition pool_release (client : value) : promise sys value :=
  λ s,
  let '(e, reply, out) := Engine.release client (pool s) in
  (Sys e (record (PoolRelease client) (wld s)) (outbox s ++ out), reply).

(** A promise that is already settled. *)
Definition settled_as {S A} (o : settled A) : promise S A := λ s, (s, o).

(** The [then] callback of [acquire], lines 171-179: an exception of the
    logger leaves the callback before [throw client] is reached. *)
Definition acquire_callback (this : PgPool_this) (client : value) : promise sys value :=
  λ s,
  if instanceof_Error client then
    let w := debug "Couldn't acquire connection to %j" (wld s) in
    let '(w, logged) := logger_call this "error" "Couldn't acquire connection to %j" w in
    match logged with
    | Throw err => (Sys (pool s) w (outbox s), Rejected err)
    | Normal _ => (Sys (pool s) w (outbox s), Rejected client)
    end
  else (s, Fulfilled client).

(** [PgPool.prototype.acquire], lines 169-180. *)
Definition PgPool_acquire (B : backend) (this : PgPool_this) (priority : option nat)
  : promise sys value :=
  then_ (pool_acquire B this priority) (acquire_callback this).

(** [client.query(queryString)]: only a connected client has the method. *)
Definition client_query (B : backend) (client : value) (queryString : string)
  : option (promise sys value) :=
  match client with
  | VClient id =>
      Some (λ s, (Sys (pool s) (record (ClientQuery id queryString) (wld s)) (outbox s),
                  query_result B id queryString))
  | _ => None
  end.

(** The [then] callback of [query], lines 145-159: calling a missing method
    throws before the inner [then] and [catch] are attached; in the [catch]
    handler an exception of the logger comes after the release and before
    [throw err]. *)
Definition query_callback (B : backend) (this : PgPool_this) (queryString : string)
  (client : value) : promise sys value :=
  match client_query B client queryString with
  | None => settled_as (Rejected (not_a_function "client.query"))
  | Some running =>
      catch_
        (then_ running (λ result s,
           let '(s, _) := pool_release client s in
           (s, Fulfilled result)))
        (λ err s,
           let '(s, _) := pool_release client s in
           let '(w, logged) := logger_call this "error" "Errored query" (wld s) in
           match logged with
           | Throw thrown => (Sys (pool s) w (outbox s), Rejected thrown)
           | Normal _ =>
               let w := debug "Errored query" w in
               (Sys (pool s) w (outbox s), Rejected err)
           end)
  end.

(** [PgPool.prototype.query], lines 142-160. *)
Definition PgPool_query (B : backend) (this : PgPool_this) (queryString : string)
  : promise sys value :=
  then_ (pool_acquire B this None) (query_callback B this queryString).

(** [PgPool.prototype.release], lines 188-190. *)
Definition PgPool_release (client : value) : promise sys value :=
  pool_release client.


(** [PgPool.prototype.drain], lines 207-209, hands the engine's [drain] a
    callback that calls the engine's [clear].  Whether and when the engine
    runs that callback is decided outside these sources, so [drain] has no
    definition here. *)

Definition getName (this : PgPool_this) : optval := name this.
Definition getPgOptions (this : PgPool_this) : optval := pgOptions this.
Definition getPoolOptions (this : PgPool_this) : optval := poolOptions this.
Definition getPoolSize (s : sys) : nat := Engine.size (pool s).
Definition availableCount (s : sys) : nat := Engine.available (pool s).
Definition pendingCount (s : sys) : nat := Engine.pending (pool s).

Record pool_status := Status {
  status_name : optval;
  status_size : nat;
  status_available : nat;
  status_pending : nat
}.

(** [PgPool.prototype.status], lines 270-277. *)
Definition status (this : PgPool_this) (s : sys) : pool_status :=
  Status (name this) (Engine.size (pool s)) (Engine.available (pool s))
         (Engine.pending (pool s)).

(** A pool right after [new PgPool(options)]. *)
Definition started (created : PgPool_this * Engine.t) : sys :=
  Sys created.2 (World 0 []) [].

(** ** Predicates of the statements *)

(** Every connection attempt ends in an error. *)
Definition always_fails (B : backend) : Prop :=
  ∀ opts n, ∃ err, connect_result B opts n = ConnError err.

(** What [factory.create] can yield: a connected client or the terminal
    error. *)
Definition factory_made (v : value) : Prop :=
  v = CONN_FAILED ∨ ∃ n, v = VClient n.

(** Everything the engine holds, idle or active, came from the factory. *)
Definition pooled_by_factory (e : Engine.t) : Prop :=
  Forall factory_made (Engine.idle e ++ Engine.active e).

(** Arrival numbers of creations in flight are below the next one. *)
Definition creating_below (e : Engine.t) : Prop :=
  ∀ r, Some r ∈ Engine.creating e → r < Engine.next_rid e.

(** Request [r] has arrived and no creation is under way for it. *)
Definition not_creating (r : nat) (e : Engine.t) : Prop :=
  r < Engine.next_rid e ∧ Some r ∉ Engine.creating e.

(** Request [r] has arrived and the engine holds nothing for it any more. *)
Definition forgotten (r : nat) (e : Engine.t) : Prop :=
  not_creating r e ∧ r ∉ Engine.rid <$> Engine.waiting e.

(** Two option objects agree on the four keys the constructor reads. *)
Definition agree_on_kept (o1 o2 : optval) : Prop :=
  ∀ key, key ∈ ["name"; "pgOptions"; "poolOptions"; "logger"] →
         own_fields o1 !! key = own_fields o2 !! key.

(** ** Sample pools *)

(** A host that refuses every connection. *)
Definition unreachable_backend : backend :=
  Backend false
    (λ _ _, ConnError (VError "Error" "getaddrinfo ENOTFOUND UNAVAILABLE_HOST"))
    (λ _ _, Unsettled)
    (λ _, EndCallsBack).

(** A database that answers "SELECT 1;" and rejects anything else. *)
Definition test_backend : backend :=
  Backend false
    (λ _ _, ConnReady)
    (λ _ q, if String.eqb q "SELECT 1;" then Fulfilled (VResult ["1"])
            else Rejected (VError "error" "syntax error at or near"))
    (λ _, EndCallsBack).

Definition test_options (min max : Z) : optval :=
  OObj {[ "pgOptions" := OStr "postgres://postgres@localhost:5432/test_db";
          "poolOptions" := OObj {[ "min" := ONum min; "max" := ONum max ]} ]}.

(** The same options with a key the constructor does not read. *)
Definition noisy_options (min max : Z) : optval :=
  OObj (<["verbose" := OBool true]> (own_fields (test_options min max))).

Definition test_pool : PgPool_this * Engine.t := PgPool "k3x9" (test_options 0 1).

(** ** Further predicates and sample data *)

(** The five methods [injectLogger] provides. *)
Definition logger_methods : list string :=
  ["log"; "debug"; "info"; "warn"; "error"].

(** Reading [pgOptions.native] succeeds and does not stop [create] before
    it connects. *)
Definition connects_directly (B : backend) (opts : optval) : Prop :=
  ∃ native, get_field opts "native" = Normal native
            ∧ is_true native && negb (pg_has_native B) = false.

(** What [create] makes of the answer of [client.connect] on attempt [n]. *)
Definition connect_answer (n : nat) (c : connect_outcome) : settled value :=
  match c with
  | ConnReady => Fulfilled (VClient n)
  | ConnError err => Rejected err
  | ConnSilent => Unsettled
  end.

(** A host that refuses the first two connections and accepts later ones. *)
Definition flaky_backend : backend :=
  Backend false
    (λ _ n, if n <? 2 then ConnError (VError "Error" "connect ECONNREFUSED")
            else ConnReady)
    (λ _ _, Fulfilled (VResult []))
    (λ _, EndCallsBack).

(** A database that connects and then never answers a query. *)
Definition stalled_backend : backend :=
  Backend false (λ _ _, ConnReady) (λ _ _, Unsettled) (λ _, EndCallsBack).

(** A logger that brings its own [error] method only. *)
Definition custom_logger : optval := OObj {[ "error" := OFun 7 ]}.

Definition logged_options : optval :=
  OObj (<["logger" := custom_logger]> (own_fields (test_options 0 1))).

Definition logged_pool : PgPool_this * Engine.t := PgPool "k3x9" logged_options.

(** A logger whose [error] is not a function, and a pool built with it. *)
Definition broken_logger : optval := OObj {[ "error" := OUndefined ]}.

Definition broken_pool : PgPool_this * Engine.t :=
  PgPool "k3x9" (OObj (<["logger" := broken_logger]> (own_fields (test_options 0 1)))).

(** A database whose connections cannot be closed. *)
Definition unclosable_backend : backend :=
  Backend false (λ _ _, ConnReady) (λ _ _, Fulfilled (VResult []))
    (λ _, EndThrows (VError "Error" "socket hang up")).

(** Options without [pgOptions]. *)
Definition bare_options : optval := OObj {[ "name" := OStr "bare" ]}.




(** ** Proof steps *)

(** Closes a goal about what an empty list of deliveries tells. *)
Ltac nothing_told :=
  let Hin := fresh "Hin" in
  intros ? ? Hin; by apply elem_of_nil in Hin.

(** * Properties *)

(** ** Connection failure: the three-attempt ceiling *)

Lemma create_fails B opts w :
  always_fails B →
  ∃ j err, create B opts w = (World (S (attempts w)) j, Rejected err).
Proof.
  intros Hdead. unfold create, new_Promise.
  destruct (get_field opts "native") as [native|e]; simpl.
  - destruct (is_true native && negb (pg_has_native B)); simpl; [by eauto|].
    destruct (Hdead opts (attempts w)) as [err ->]. simpl. by eauto.
  - by eauto.
Qed.

Lemma create_callback_fails B opts createAttempts w :
  always_fails B → createAttempts < 3 →
  ∃ j err, create_callback B opts (createAttempts, w)
           = ((S createAttempts, World (S (attempts w)) j), Rejected err).
Proof.
  intros Hdead Hlt. unfold create_callback.
  destruct (Nat.ltb_spec 3 (S createAttempts)) as [?|_]; [lia|].
  destruct (create_fails B opts w Hdead) as (j & err & ->). by eauto.
Qed.

Lemma factory_create_gives_up B this w :
  always_fails B →
  ∃ j, factory_create B this w = (World (attempts w + 3) j, Fulfilled CONN_FAILED).
Proof.
  intros Hdead. unfold factory_create.
  destruct (create_callback_fails B (pgOptions this) 0 w Hdead) as (j1 & e1 & H1); [lia|].
  set (w1 := World (S (attempts w)) j1) in *.
  destruct (create_callback_fails B (pgOptions this) 1 w1 Hdead) as (j2 & e2 & H2); [lia|].
  set (w2 := World (S (attempts w1)) j2) in *.
  destruct (create_callback_fails B (pgOptions this) 2 w2 Hdead) as (j3 & e3 & H3); [lia|].
  cbn [retry]. rewrite H1. cbn [retry]. rewrite H2. cbn [retry]. rewrite H3.
  cbn [retry]. subst w1 w2. unfold debug, record. cbn.
  replace (S (S (S (attempts w)))) with (attempts w + 3) by lia. by eexists.
Qed.

(** The factory never rejects: after three failed attempts the failure
    travels as a fulfilled value. *)
Lemma factory_create_never_rejects B this w err :
  (factory_create B this w).2 ≠ Rejected err.
Proof.
  unfold factory_create.
  do 3 (cbn [retry]; unfold create_callback at 1; cbn;
        destruct (create B (pgOptions this) _) as [? [?|?|]]; cbn; try done).
Qed.

(** An acquire that finds no idle resource and room below [max] makes the
    engine ask the factory. *)
Lemma acquire_must_create prio e :
  Engine.idle e = [] → Engine.size e < Engine.max (Engine.cfg e) →
  Engine.acquire prio e
  = (Engine.Make (Engine.cfg e) [] (Engine.active e)
       (Engine.creating e ++ [Some (Engine.next_rid e)]) (Engine.waiting e)
       (S (Engine.next_rid e)),
     Engine.MustCreate).
Proof.
  intros Hidle Hroom. unfold Engine.acquire. rewrite Hidle.
  by destruct (Nat.ltb_spec (Engine.size e) (Engine.max (Engine.cfg e))); [|lia].
Qed.

Lemma told_here r o out : told r ((r, o) :: out) = o.
Proof. simpl. by rewrite decide_True. Qed.

Lemma create_done_last l r v e :
  Engine.creating e = l ++ [Some r] →
  Engine.create_done (length l) v e
  = (Engine.Make (Engine.cfg e) (Engine.idle e) (v :: Engine.active e) l
       (Engine.waiting e) (Engine.next_rid e),
     [(r, Fulfilled v)]).
Proof.
  intros Hc. unfold Engine.create_done. rewrite Hc.
  rewrite lookup_app_r; [|lia]. rewrite Nat.sub_diag. simpl.
  by rewrite delete_middle, app_nil_r.
Qed.

Lemma logger_call_eq this method msg w :
  logger_call this method msg w
  = (World (attempts w) (journal w ++ logger_lines this method msg),
     match logger_raises this method with
     | None => Normal ()
     | Some err => Throw err
     end).
Proof. done. Qed.

Lemma logger_lines_returns this method msg :
  logger_raises this method = None →
  logger_lines this method msg
  = [Logger method (default OUndefined (logger this !! method)) msg].
Proof.
  unfold logger_raises, logger_lines.
  by destruct (default OUndefined (logger this !! method)).
Qed.

(** What the callback of [acquire] does with an [Error] instance. *)
Lemma acquire_callback_on_error this v s :
  instanceof_Error v = true →
  acquire_callback this v s
  = (Sys (pool s)
         (World (attempts (wld s))
                (journal (wld s)
                 ++ [Debug "Couldn't acquire connection to %j"]
                 ++ logger_lines this "error" "Couldn't acquire connection to %j"))
         (outbox s),
     Rejected (default v (logger_raises this "error"))).
Proof.
  intros Herr. unfold acquire_callback. rewrite Herr, logger_call_eq.
  unfold debug, record. cbn. rewrite <- app_assoc.
  by destruct (logger_raises this "error").
Qed.

(** C2, as the code has it.  Against a backend on which connection
    establishment always fails, every acquire that the engine passes to the
    factory (no idle resource, room below [max]) makes the factory call
    [create] exactly three times; the fourth run of the factory's callback
    produces the terminal error, message "CONN_FAILED", as a fulfilled
    value instead of calling [create] again, and the acquire rejects its
    caller: with that error when [logger.error] returns, with the
    exception of [logger.error] when it throws. *)
Theorem acquire_conn_failed_after_three_attempts B this priority s :
  always_fails B →
  Engine.idle (pool s) = [] →
  Engine.size (pool s) < Engine.max (Engine.cfg (pool s)) →
  (factory_create B this (wld s)).2 = Fulfilled (VError "Error" "CONN_FAILED") ∧
  attempts (factory_create B this (wld s)).1 = attempts (wld s) + 3 ∧
  (PgPool_acquire B this priority s).2
  = Rejected (default (VError "Error" "CONN_FAILED") (logger_raises this "error")) ∧
  attempts (wld (PgPool_acquire B this priority s).1) = attempts (wld s) + 3.
Proof.
  intros Hdead Hidle Hroom.
  destruct (factory_create_gives_up B this (wld s) Hdead) as [j Hf].
  rewrite Hf. split; [done|]. split; [done|].
  unfold PgPool_acquire, then_, pool_acquire.
  rewrite (acquire_must_create _ _ Hidle Hroom), Hf.
  erewrite create_done_last; [|done].
  rewrite told_here, acquire_callback_on_error by done. by cbn.
Qed.

(** ** The sentinel check of [acquire] *)

(** C3, as the code has it.  For every call of the facade's [acquire], and
    for every value the engine hands to a request later on: a yielded
    [Error] instance becomes a rejection, with exactly that value when
    [logger.error] returns and with the exception of [logger.error] when
    it throws; any other value is passed on unchanged; a rejection by the
    engine (such as a time-out) is passed on as it is.  The factory's
    terminal error and the engine's time-out error are different values. *)
Theorem acquire_rejects_exactly_the_sentinel B this priority s o :
  (PgPool_acquire B this priority s).2
  = match (pool_acquire B this priority s).2 with
    | Fulfilled client =>
        if instanceof_Error client
        then Rejected (default client (logger_raises this "error"))
        else Fulfilled client
    | other => other
    end
  ∧ (then_ (settled_as o) (acquire_callback this) s).2
    = match o with
      | Fulfilled client =>
          if instanceof_Error client
          then Rejected (default client (logger_raises this "error"))
          else Fulfilled client
      | other => other
      end
  ∧ (then_ (settled_as (Fulfilled CONN_FAILED)) (acquire_callback this) s).2
    = Rejected (default (VError "Error" "CONN_FAILED") (logger_raises this "error"))
  ∧ (then_ (settled_as (Rejected Engine.timed_out)) (acquire_callback this) s).2
    = Rejected (VError "TimeoutError" "ResourceRequest timed out")
  ∧ CONN_FAILED ≠ Engine.timed_out.
Proof.
  assert (∀ v s', (acquire_callback this v s').2
            = if instanceof_Error v
              then Rejected (default v (logger_raises this "error"))
              else Fulfilled v) as Hcb.
  { intros v s'. destruct (instanceof_Error v) eqn:Hv.
    - by rewrite acquire_callback_on_error.
    - unfold acquire_callback. by rewrite Hv. }
  repeat split; try done.
  - unfold PgPool_acquire, then_.
    destruct (pool_acquire B this priority s) as [s1 [v| |]]; simpl;
      first [done | apply Hcb].
  - unfold then_, settled_as. destruct o as [v| |]; simpl;
      first [done | apply Hcb].
  - unfold then_, settled_as. by rewrite acquire_callback_on_error.
Qed.

(** ** Destroying a connection *)

(** C8, as the code has it.  On a pool whose [logger.error] returns,
    whatever the resource and whatever [client.end] does (calls back,
    throws, stays silent, or is missing), the promise of [factory.destroy]
    is never rejected: it is fulfilled when [client.end] calls back and
    stays unsettled otherwise, and a failure to close ends up in the
    journal as an error-level log line only. *)
Theorem factory_destroy_never_rejects B this client w :
  logger_raises this "error" = None →
  (∀ err, (factory_destroy B this client w).2 ≠ Rejected err)
  ∧ match client_end B client with
    | Some EndCallsBack =>
        (factory_destroy B this client w).2 = Fulfilled VUndefined
    | Some EndSilent =>
        (factory_destroy B this client w).2 = Unsettled
    | Some (EndThrows _) | None =>
        (factory_destroy B this client w).2 = Unsettled ∧
        last (journal (factory_destroy B this client w).1)
        = Some (Logger "error" (default OUndefined (logger this !! "error"))
                       "Failed to destroy connection")
    end.
Proof.
  intros Hok. unfold factory_destroy, new_Promise.
  rewrite !logger_call_eq, Hok.
  pose proof (logger_lines_returns this "error" "Failed to destroy connection" Hok)
    as Hlines.
  destruct (client_end B client) as [[|err|]|]; cbn;
    rewrite ?logger_call_eq, ?Hok; cbn;
    destruct (logger_raises this "log"); cbn;
    repeat split; try done;
    by rewrite Hlines, last_snoc.
Qed.

(** ** [query] and the resource it holds *)

Lemma create_failed_last l r err e :
  Engine.creating e = l ++ [Some r] →
  Engine.create_failed (length l) err e
  = (Engine.Make (Engine.cfg e) (Engine.idle e) (Engine.active e) l
       (Engine.waiting e) (Engine.next_rid e),
     [(r, Rejected err)]).
Proof.
  intros Hc. unfold Engine.create_failed. rewrite Hc.
  rewrite lookup_app_r; [|lia]. rewrite Nat.sub_diag. simpl.
  by rewrite delete_middle, app_nil_r.
Qed.

(** A resource the engine yields at once is in its active set. *)
Lemma pool_acquire_active B this priority s s1 v :
  pool_acquire B this priority s = (s1, Fulfilled v) →
  v ∈ Engine.active (pool s1).
Proof.
  unfold pool_acquire, Engine.acquire.
  destruct (Engine.idle (pool s)) as [|x rest] eqn:Hidle.
  - destruct (Engine.size (pool s) <? Engine.max (Engine.cfg (pool s))).
    + destruct (factory_create B this (wld s)) as [w [v0|err|]].
      * erewrite create_done_last; [|done]. rewrite told_here.
        intros [= <- <-]. simpl. by left.
      * erewrite create_failed_last; [|done]. by rewrite told_here.
      * done.
    + done.
  - intros [= <- <-]. simpl. by left.
Qed.

Lemma release_of_member v e :
  v ∈ Engine.active e →
  ∃ e' out, Engine.release v e = (e', Fulfilled VUndefined, out).
Proof.
  intros Hin. unfold Engine.release. rewrite decide_True by done.
  destruct (Engine.dispense _ _) as [e' out]. by eauto.
Qed.

(** Whenever the callback of [query] runs on a client the engine holds as
    active (handed over at once or after a wait), it releases that client
    exactly once, before it returns the result or calls the logger and
    re-raises the error. *)
Lemma query_callback_releases_once B this q s1 id :
  VClient id ∈ Engine.active (pool s1) →
  ∃ e out,
    Engine.release (VClient id) (pool s1) = (e, Fulfilled VUndefined, out) ∧
    match query_result B id q with
    | Fulfilled result =>
        query_callback B this q (VClient id) s1
        = (Sys e (World (attempts (wld s1))
                        (journal (wld s1)
                         ++ [ClientQuery id q; PoolRelease (VClient id)]))
               (outbox s1 ++ out),
           Fulfilled result)
    | Rejected err =>
        query_callback B this q (VClient id) s1
        = (Sys e (World (attempts (wld s1))
                        (journal (wld s1)
                         ++ [ClientQuery id q; PoolRelease (VClient id)]
                         ++ logger_lines this "error" "Errored query"
                         ++ match logger_raises this "error" with
                            | None => [Debug "Errored query"]
                            | Some _ => []
                            end))
               (outbox s1 ++ out),
           Rejected (default err (logger_raises this "error")))
    | Unsettled => (query_callback B this q (VClient id) s1).2 = Unsettled
    end.
Proof.
  intros Hin. destruct (release_of_member _ _ Hin) as (e & out & Hrel).
  exists e, out. split; [done|].
  unfold query_callback, client_query, catch_, then_, pool_release.
  destruct (query_result B id q) as [result|err|]; cbn; rewrite ?Hrel; cbn;
    try done.
  - unfold record. cbn. by rewrite <- !app_assoc.
  - unfold logger_call, debug, record. cbn.
    destruct (logger_raises this "error"); cbn;
      by rewrite <- ?app_assoc, ?app_nil_r.
Qed.

(** C4, as the code has it.  When the acquire inside [query] yields a
    connected client, that client is released to the engine exactly once,
    and the engine accepts the release: after a successful backend query
    the journal shows the query followed by one release and the result is
    returned; after a failed backend query it shows the query, one
    release, and only then the call of [logger.error]; the backend's error
    is re-raised when that call returns, and the exception of
    [logger.error] is raised in its place when it throws. *)
Theorem query_releases_exactly_once B this q s s1 id :
  pool_acquire B this None s = (s1, Fulfilled (VClient id)) →
  ∃ e out,
    Engine.release (VClient id) (pool s1) = (e, Fulfilled VUndefined, out) ∧
    match query_result B id q with
    | Fulfilled result =>
        PgPool_query B this q s
        = (Sys e (World (attempts (wld s1))
                        (journal (wld s1)
                         ++ [ClientQuery id q; PoolRelease (VClient id)]))
               (outbox s1 ++ out),
           Fulfilled result)
    | Rejected err =>
        PgPool_query B this q s
        = (Sys e (World (attempts (wld s1))
                        (journal (wld s1)
                         ++ [ClientQuery id q; PoolRelease (VClient id)]
                         ++ logger_lines this "error" "Errored query"
                         ++ match logger_raises this "error" with
                            | None => [Debug "Errored query"]
                            | Some _ => []
                            end))
               (outbox s1 ++ out),
           Rejected (default err (logger_raises this "error")))
    | Unsettled => (PgPool_query B this q s).2 = Unsettled
    end.
Proof.
  intros Hacq.
  assert (PgPool_query B this q s = query_callback B this q (VClient id) s1)
    as ->.
  { unfold PgPool_query, then_. by rewrite Hacq. }
  apply query_callback_releases_once. by eapply pool_acquire_active.
Qed.

(** C9.  When the acquire inside [query] yields the factory's terminal
    error instead of a client, [query] calls the missing [query] method on
    it and is rejected with the resulting type error; no release runs (the
    state is the one the acquire left, journal included), and the error
    value stays in the engine's active set. *)
Theorem query_on_sentinel_never_releases B this q s s1 :
  pool_acquire B this None s = (s1, Fulfilled CONN_FAILED) →
  PgPool_query B this q s
  = (s1, Rejected (VError "TypeError" "client.query is not a function"))
  ∧ CONN_FAILED ∈ Engine.active (pool s1).
Proof.
  intros Hacq. split; [|by eapply pool_acquire_active].
  unfold PgPool_query, then_. by rewrite Hacq.
Qed.

(** ** Releasing what the pool does not hold *)




Lemma undefined_not_factory_made l :
  Forall factory_made l → VUndefined ∉ l.
Proof.
  intros Hall Hin. rewrite Forall_forall in Hall.
  by destruct (Hall _ Hin) as [?|[? ?]].
Qed.

(** C6.  In a pool that holds only what the factory made, a release with
    no argument, or with any value that is not in the active
    set (a client of another pool, an idle resource), is rejected with the
    error "Resource not currently part of this pool", and the engine, with
    it the size, available and pending counters, is left as it was. *)
Theorem release_of_non_member_rejects client s :
  pooled_by_factory (pool s) →
  client = VUndefined ∨ client ∉ Engine.active (pool s) →
  (PgPool_release client s).2
  = Rejected (VError "Error" "Resource not currently part of this pool")
  ∧ pool (PgPool_release client s).1 = pool s
  ∧ getPoolSize (PgPool_release client s).1 = getPoolSize s
  ∧ availableCount (PgPool_release client s).1 = availableCount s
  ∧ pendingCount (PgPool_release client s).1 = pendingCount s.
Proof.
  intros Hmade Hwhat.
  assert (client ∉ Engine.active (pool s)) as Hout.
  { destruct Hwhat as [->|?]; [|done].
    apply undefined_not_factory_made.
    by apply Forall_app in Hmade as [_ ?]. }
  unfold PgPool_release, pool_release, Engine.release.
  rewrite decide_False by done. by cbn.
Qed.

(** ** The engine's accounting *)

Lemma length_remove1 v l :
  v ∈ l → S (length (Engine.remove1 v l)) = length l.
Proof.
  induction l as [|x l IH]; simpl; intros Hin.
  - by apply elem_of_nil in Hin.
  - case_decide; [done|]. simpl. f_equal. apply IH.
    apply elem_of_cons in Hin as [?|?]; [congruence|done].
Qed.

Lemma next_request_in l r : Engine.next_request l = Some r → r ∈ l.
Proof.
  revert r. induction l as [|x l IH]; simpl; intros r; [done|].
  destruct (Engine.next_request l) as [r'|].
  - destruct (Engine.priority r' <? Engine.priority x); intros [= <-].
    + right. by apply IH.
    + by left.
  - intros [= <-]. by left.
Qed.

Lemma rid_without r r' l :
  r' ∈ Engine.rid <$> Engine.without r l ↔ r' ≠ r ∧ r' ∈ Engine.rid <$> l.
Proof.
  unfold Engine.without. rewrite !list_elem_of_fmap. split.
  - intros (q & -> & Hq). apply list_elem_of_filter in Hq as [? ?]. by eauto.
  - intros (? & q & -> & ?). exists q. split; [done|].
    by apply list_elem_of_filter.
Qed.

(** What [dispense] changes: one more resource, no new request, and only a
    waiting request is told anything. *)
Lemma dispense_facts v e e' out :
  Engine.dispense v e = (e', out) →
  Engine.cfg e' = Engine.cfg e ∧
  Engine.next_rid e' = Engine.next_rid e ∧
  Engine.creating e' = Engine.creating e ∧
  Engine.size e' = S (Engine.size e) ∧
  (∀ r, r ∈ Engine.rid <$> Engine.waiting e' → r ∈ Engine.rid <$> Engine.waiting e) ∧
  (∀ r o, (r, o) ∈ out → r ∈ Engine.rid <$> Engine.waiting e).
Proof.
  unfold Engine.dispense, Engine.size.
  destruct (Engine.next_request (Engine.waiting e)) as [q|] eqn:Hq;
    intros [= <- <-]; cbn; repeat split; try done.
  - lia.
  - intros r Hr. by apply rid_without in Hr as [_ ?].
  - intros r o Hin. apply list_elem_of_singleton in Hin as [= -> ->].
    apply list_elem_of_fmap_2. by apply next_request_in.
  - rewrite length_app. simpl. lia.
  - nothing_told.
Qed.

Lemma ensure_minimum_facts e :
  Engine.cfg (Engine.ensure_minimum e) = Engine.cfg e ∧
  Engine.next_rid (Engine.ensure_minimum e) = Engine.next_rid e ∧
  Engine.waiting (Engine.ensure_minimum e) = Engine.waiting e ∧
  (∀ r, Some r ∈ Engine.creating (Engine.ensure_minimum e) →
        Some r ∈ Engine.creating e).
Proof.
  unfold Engine.ensure_minimum.
  destruct (Engine.size e <? Engine.min (Engine.cfg e)); cbn;
    repeat split; try done.
  intros r Hr. apply elem_of_app in Hr as [?|Hr]; [done|].
  by apply list_elem_of_singleton in Hr.
Qed.

(** One step never forgets the configuration, never reuses an arrival
    number, and tells something only to a request it knows or has just
    served. *)
Lemma step_facts e o e' out :
  Engine.step e o = (e', out) →
  Engine.cfg e' = Engine.cfg e ∧
  Engine.next_rid e ≤ Engine.next_rid e' ∧
  (∀ r, Some r ∈ Engine.creating e' →
        Some r ∈ Engine.creating e
        ∨ (r = Engine.next_rid e ∧ Engine.next_rid e < Engine.next_rid e')) ∧
  (∀ r, r ∈ Engine.rid <$> Engine.waiting e' →
        r ∈ Engine.rid <$> Engine.waiting e
        ∨ (r = Engine.next_rid e ∧ Engine.next_rid e < Engine.next_rid e')) ∧
  (∀ r o', (r, o') ∈ out →
        r ∈ Engine.rid <$> Engine.waiting e
        ∨ Some r ∈ Engine.creating e
        ∨ (r = Engine.next_rid e ∧ Engine.next_rid e < Engine.next_rid e')).
Proof.
  destruct o as [prio|v|i v|i err|r0|v]; simpl.
  - unfold Engine.acquire.
    destruct (Engine.idle e) as [|x rest].
    + destruct (Engine.size e <? Engine.max (Engine.cfg e));
        intros [= <- <-]; cbn; repeat split; try done; try lia.
      * intros r Hr. apply elem_of_app in Hr as [?|Hr]; [by left|].
        apply list_elem_of_singleton in Hr as [= ->]. right. lia.
      * by left.
      * nothing_told.
      * by left.
      * intros r Hr. rewrite fmap_app in Hr.
        apply elem_of_app in Hr as [?|Hr]; [by left|].
        apply list_elem_of_singleton in Hr as ->. right. simpl. lia.
      * nothing_told.
    + intros [= <- <-]; cbn; repeat split; try done; try lia; try by left.
      intros r o' Hin. apply list_elem_of_singleton in Hin as [= -> ->].
      right. right. lia.
  - unfold Engine.release. case_decide.
    + destruct (Engine.dispense _ _) as [e1 out1] eqn:Hd. intros [= <- <-].
      apply dispense_facts in Hd as (-> & -> & -> & _ & Hw & Ho). cbn in *.
      repeat split; try done; try lia; try by left.
      * intros r Hr. left. by apply Hw.
      * intros r o' Hin. left. by eapply Ho.
    + intros [= <- <-]. repeat split; try done; try lia; try by left.
      nothing_told.
  - unfold Engine.create_done.
    destruct (Engine.creating e !! i) as [[r0|]|] eqn:Hi.
    + intros [= <- <-]; cbn. repeat split; try done; try lia; try by left.
      * intros r Hr. left. by eapply list_elem_of_delete_inv.
      * intros r o' Hin. apply list_elem_of_singleton in Hin as [= -> ->].
        right. left. by eapply list_elem_of_lookup_2.
    + intros Hd. apply dispense_facts in Hd as (-> & -> & -> & _ & Hw & Ho).
      cbn in *. repeat split; try done; try lia.
      * intros r Hr. left. by eapply list_elem_of_delete_inv.
      * intros r Hr. left. by apply Hw.
      * intros r o' Hin. left. by eapply Ho.
    + intros [= <- <-]. repeat split; try done; try lia; try by left.
      nothing_told.
  - unfold Engine.create_failed.
    destruct (Engine.creating e !! i) as [who|] eqn:Hi.
    + intros [= <- <-]; cbn. repeat split; try done; try lia; try by left.
      * intros r Hr. left. by eapply list_elem_of_delete_inv.
      * intros r o' Hin. destruct who as [r0|]; [|by apply elem_of_nil in Hin].
        apply list_elem_of_singleton in Hin as [= -> ->].
        right. left. by eapply list_elem_of_lookup_2.
    + intros [= <- <-]. repeat split; try done; try lia; try by left.
      nothing_told.
  - unfold Engine.timeout.
    destruct (Engine.acquireTimeoutMillis (Engine.cfg e)).
    + case_decide; intros [= <- <-]; cbn;
        repeat split; try done; try lia; try by left.
      * intros r Hr. left. by apply rid_without in Hr as [_ ?].
      * intros r o' Hin. apply list_elem_of_singleton in Hin as [= -> ->].
        by left.
      * nothing_told.
    + intros [= <- <-]. repeat split; try done; try lia; try by left.
      nothing_told.
  - intros [= <- <-]. unfold Engine.destroy.
    repeat case_decide; cbn [fst];
      try (match goal with
           | |- context [Engine.ensure_minimum ?x] =>
               destruct (ensure_minimum_facts x) as (-> & -> & -> & Hc)
           end); cbn;
      repeat split; try done; try lia; try (by left);
      try nothing_told.
    all: intros r Hr; left; by apply Hc.
Qed.

Lemma run_cons e o ops :
  Engine.run e (o :: ops)
  = ((Engine.run (Engine.step e o).1 ops).1,
     (Engine.step e o).2 ++ (Engine.run (Engine.step e o).1 ops).2).
Proof.
  cbn [Engine.run]. destruct (Engine.step e o) as [e1 out1]. cbn [fst snd].
  by destruct (Engine.run e1 ops) as [e2 out2].
Qed.

Lemma step_creating_below e o :
  creating_below e → creating_below (Engine.step e o).1.
Proof.
  destruct (Engine.step e o) as [e' out] eqn:Hs.
  apply step_facts in Hs as (_ & Hn & Hc & _). simpl.
  unfold creating_below. intros Hb r Hr.
  destruct (Hc r Hr) as [?%Hb|[-> ?]]; lia.
Qed.

Lemma run_creating_below e ops :
  creating_below e → creating_below (Engine.run e ops).1.
Proof.
  revert e. induction ops as [|o ops IH]; intros e He; [done|].
  rewrite run_cons. simpl. by apply IH, step_creating_below.
Qed.

Lemma createPool_creating_below c : creating_below (Engine.createPool c).
Proof. intros r Hr. simpl in Hr. by apply elem_of_replicate in Hr as [? _]. Qed.

Lemma step_not_creating r e o :
  not_creating r e → not_creating r (Engine.step e o).1.
Proof.
  destruct (Engine.step e o) as [e' out] eqn:Hs.
  apply step_facts in Hs as (_ & Hn & Hc & _). simpl.
  intros [Hlt Hout]. split; [lia|].
  intros Hr. destruct (Hc r Hr) as [?|[-> ?]]; [done|lia].
Qed.

Lemma run_not_creating r e ops :
  not_creating r e → not_creating r (Engine.run e ops).1.
Proof.
  revert e. induction ops as [|o ops IH]; intros e He; [done|].
  rewrite run_cons. simpl. by apply IH, step_not_creating.
Qed.

Lemma step_forgotten r e o :
  forgotten r e →
  forgotten r (Engine.step e o).1 ∧ r ∉ fst <$> (Engine.step e o).2.
Proof.
  intros [Hnc Hw]. split; [split; [by apply step_not_creating|]|].
  - destruct (Engine.step e o) as [e' out] eqn:Hs.
    apply step_facts in Hs as (_ & _ & _ & Hw' & _). simpl.
    intros Hr. destruct Hnc as [Hlt _].
    destruct (Hw' r Hr) as [?|[-> ?]]; [done|lia].
  - destruct (Engine.step e o) as [e' out] eqn:Hs.
    apply step_facts in Hs as (_ & _ & _ & _ & Ho). simpl.
    intros Hr. apply list_elem_of_fmap in Hr as ([r' o'] & -> & Hin).
    destruct Hnc as [Hlt Hc]. simpl in *.
    destruct (Ho _ _ Hin) as [?|[?|[-> ?]]]; [done|done|lia].
Qed.

Lemma run_forgotten r e ops :
  forgotten r e → r ∉ fst <$> (Engine.run e ops).2.
Proof.
  revert e. induction ops as [|o ops IH]; intros e He.
  - simpl. by apply not_elem_of_nil.
  - rewrite run_cons. simpl. rewrite fmap_app.
    destruct (step_forgotten r e o He) as [He' Hout].
    intros [?|?]%elem_of_app; [done|]. by eapply IH.
Qed.

Lemma run_cfg e ops : Engine.cfg (Engine.run e ops).1 = Engine.cfg e.
Proof.
  revert e. induction ops as [|o ops IH]; intros e; [done|].
  rewrite run_cons. simpl. rewrite IH.
  destruct (Engine.step e o) as [e' out] eqn:Hs.
  by apply step_facts in Hs as (? & _).
Qed.

(** ** Time-outs of queued requests *)

(** C7.  Take any pool history, then an acquire that the engine queues
    (nothing idle, no room), then any further history during which the
    request is still waiting when its timer fires, on a pool configured
    with a time-out.  The timer step tells the request exactly one thing, a
    rejection by a [TimeoutError], which the facade's [acquire] passes to
    its caller; the request leaves the queue, so the pending count drops;
    and whatever happens afterwards, resources freed included, nothing is
    ever told to that request again. *)
Theorem queued_acquire_times_out_once c hist prio mid later this s :
  let e0 := (Engine.run (Engine.createPool c) hist).1 in
  let r := Engine.next_rid e0 in
  let e1 := (Engine.run e0 (Engine.Acquire prio :: mid)).1 in
  let e2 := (Engine.step e1 (Engine.Timeout r)).1 in
  let out := (Engine.step e1 (Engine.Timeout r)).2 in
  (Engine.acquire prio e0).2 = Engine.Queued →
  is_Some (Engine.acquireTimeoutMillis c) →
  r ∈ Engine.rid <$> Engine.waiting e1 →
  out = [(r, Rejected (VError "TimeoutError" "ResourceRequest timed out"))]
  ∧ (then_ (settled_as (told r out)) (acquire_callback this) s).2
    = Rejected (VError "TimeoutError" "ResourceRequest timed out")
  ∧ (r ∉ Engine.rid <$> Engine.waiting e2)
  ∧ Engine.pending e2 < Engine.pending e1
  ∧ (r ∉ fst <$> (Engine.run e2 later).2).
Proof.
  intros e0 r e1 e2 out Hq [ms Hms] Hw.
  assert (creating_below e0) as Hb0
    by apply run_creating_below, createPool_creating_below.
  assert (not_creating r e1) as Hnc.
  { subst e1. rewrite run_cons. simpl. apply run_not_creating.
    revert Hq. unfold Engine.acquire. fold r.
    destruct (Engine.idle e0); [|done].
    destruct (Engine.size e0 <? Engine.max (Engine.cfg e0)); [done|].
    intros _. split; simpl; [lia|]. intros Hr%Hb0. subst r. lia. }
  assert (Engine.cfg e1 = c) as Hc.
  { subst e1 e0. by rewrite !run_cfg. }
  assert (Engine.step e1 (Engine.Timeout r)
          = (Engine.Make (Engine.cfg e1) (Engine.idle e1) (Engine.active e1)
               (Engine.creating e1) (Engine.without r (Engine.waiting e1))
               (Engine.next_rid e1),
             [(r, Rejected Engine.timed_out)])) as Hstep.
  { simpl. unfold Engine.timeout. rewrite Hc, Hms. by rewrite decide_True. }
  subst e2 out. rewrite Hstep. simpl.
  assert (r ∉ Engine.rid <$> Engine.without r (Engine.waiting e1)) as Hgone.
  { intros Hr. by apply rid_without in Hr as [? _]. }
  split; [done|]. split; [by rewrite decide_True|]. split; [done|].
  split.
  - apply list_elem_of_fmap in Hw as (q & Hq' & Hin).
    unfold Engine.pending, Engine.without. simpl.
    eapply length_filter_lt; [done|]. simpl. by intros ?.
  - apply run_forgotten. split; [|done]. by destruct Hnc.
Qed.

(** ** Counters *)

Lemma read_config_floor_below_cap poolOptions :
  Engine.min (read_config poolOptions) ≤ Engine.max (read_config poolOptions).
Proof. unfold read_config. simpl. lia. Qed.

Lemma step_size_bound e o :
  Engine.min (Engine.cfg e) ≤ Engine.max (Engine.cfg e) →
  Engine.size e ≤ Engine.max (Engine.cfg e) →
  Engine.size (Engine.step e o).1 ≤ Engine.max (Engine.cfg e).
Proof.
  intros Hcfg Hsize. destruct o as [prio|v|i v|i err|r0|v]; simpl.
  - unfold Engine.acquire. destruct (Engine.idle e) as [|x rest] eqn:Hidle.
    + destruct (Nat.ltb_spec (Engine.size e) (Engine.max (Engine.cfg e)));
        unfold Engine.size in *; rewrite Hidle in *; cbn in *;
        rewrite ?length_app; simpl; lia.
    + unfold Engine.size in *. rewrite Hidle in *. cbn in *. lia.
  - unfold Engine.release. case_decide as Hin; [|done].
    destruct (Engine.dispense _ _) as [e1 out1] eqn:Hd. simpl.
    apply dispense_facts in Hd as (_ & _ & _ & -> & _).
    apply length_remove1 in Hin. revert Hsize. unfold Engine.size. cbn. lia.
  - unfold Engine.create_done.
    destruct (Engine.creating e !! i) as [[r0|]|] eqn:Hi; [| |done].
    + pose proof (length_delete (Engine.creating e) i (mk_is_Some _ _ Hi)).
      pose proof (lookup_lt_Some _ _ _ Hi).
      revert Hsize. unfold Engine.size. cbn. lia.
    + destruct (Engine.dispense _ _) as [e1 out1] eqn:Hd. simpl.
      apply dispense_facts in Hd as (_ & _ & _ & -> & _).
      pose proof (length_delete (Engine.creating e) i (mk_is_Some _ _ Hi)).
      pose proof (lookup_lt_Some _ _ _ Hi).
      revert Hsize. unfold Engine.size. cbn. lia.
  - unfold Engine.create_failed.
    destruct (Engine.creating e !! i) as [who|] eqn:Hi; [|done].
    pose proof (length_delete (Engine.creating e) i (mk_is_Some _ _ Hi)).
    revert Hsize. unfold Engine.size. cbn. lia.
  - unfold Engine.timeout.
    destruct (Engine.acquireTimeoutMillis (Engine.cfg e)); [|done].
    by case_decide.
  - unfold Engine.destroy, Engine.ensure_minimum.
    repeat case_decide; cbn [fst]; [| |done];
      match goal with
      | |- context [Engine.size ?x <? ?m] => destruct (Nat.ltb_spec (Engine.size x) m)
      end;
      match goal with
      | H : _ ∈ _ |- _ => apply length_remove1 in H
      end;
      revert Hsize; unfold Engine.size in *; cbn in *;
      rewrite ?length_app; simpl; lia.
Qed.

Lemma run_size_bound e ops :
  Engine.min (Engine.cfg e) ≤ Engine.max (Engine.cfg e) →
  Engine.size e ≤ Engine.max (Engine.cfg e) →
  Engine.size (Engine.run e ops).1 ≤ Engine.max (Engine.cfg e).
Proof.
  revert e. induction ops as [|o ops IH]; intros e Hcfg Hsize; [done|].
  rewrite run_cons. simpl.
  assert (Engine.cfg (Engine.step e o).1 = Engine.cfg e) as Hc.
  { destruct (Engine.step e o) as [e' out] eqn:Hs.
    by apply step_facts in Hs as (? & _). }
  rewrite <- Hc. apply IH; rewrite Hc; [done|]. by apply step_size_bound.
Qed.

(** C1, as the engine keeps it.  For every pool the constructor builds and
    every history of engine operations (acquires, releases, creations that
    end or fail, time-outs, destroys), after every operation the counters
    read through [getPoolSize] and [availableCount] satisfy
    available + active = size - creations in flight, and
    0 <= available <= size <= max.  When no creation is in flight this is
    available + active = size. *)
Theorem counters_within_bounds random options ops w out :
  let e := (Engine.run (PgPool random options).2 ops).1 in
  let s := Sys e w out in
  availableCount s + Engine.borrowed e
  = getPoolSize s - length (Engine.creating e)
  ∧ 0 ≤ availableCount s
  ∧ availableCount s ≤ getPoolSize s
  ∧ getPoolSize s ≤ Engine.max (Engine.cfg e)
  ∧ Engine.cfg e = read_config (poolOptions (PgPool random options).1).
Proof.
  intros e s. subst s. unfold availableCount, getPoolSize. simpl.
  assert (Engine.cfg e = read_config (poolOptions (PgPool random options).1))
    as Hc.
  { subst e. by rewrite run_cfg. }
  assert (Engine.size e ≤ Engine.max (Engine.cfg e)) as Hbound.
  { subst e. rewrite run_cfg. apply run_size_bound; simpl.
    - apply read_config_floor_below_cap.
    - unfold Engine.size. simpl. rewrite length_replicate.
      apply read_config_floor_below_cap. }
  unfold Engine.size, Engine.available, Engine.borrowed in *.
  repeat split; try done; lia.
Qed.

(** ** The constructor and the options it keeps *)

Lemma pick_lookup options keys key :
  pick options keys !! key
  = if decide (key ∈ keys) then own_fields options !! key else None.
Proof.
  unfold pick. apply option_eq. intros x.
  rewrite map_lookup_filter_Some. simpl.
  case_decide as Hkey.
  - split; [by intros [? _]|by split].
  - split; [by intros [_ ?]|done].
Qed.

Lemma pick_agree o1 o2 :
  agree_on_kept o1 o2 →
  pick o1 ["name"; "pgOptions"; "poolOptions"; "logger"]
  = pick o2 ["name"; "pgOptions"; "poolOptions"; "logger"].
Proof.
  intros Hagree. apply map_eq. intros key. rewrite !pick_lookup.
  case_decide; [by apply Hagree|done].
Qed.

(** C10.  The constructor reads its options only through the keys [name],
    [pgOptions], [poolOptions] and [logger]: two option objects that agree
    on these four keys (with the same random text for a missing name) give
    the same pool object and the same engine, so every operation, being a
    function of those, behaves the same on both. *)
Theorem constructor_ignores_other_keys random o1 o2 :
  agree_on_kept o1 o2 →
  PgPool random o1 = PgPool random o2
  ∧ ∀ (T : Type) (operation : PgPool_this * Engine.t → T),
      operation (PgPool random o1) = operation (PgPool random o2).
Proof.
  intros Hagree.
  assert (PgPool random o1 = PgPool random o2) as Heq.
  { unfold PgPool. by rewrite (pick_agree _ _ Hagree). }
  split; [done|]. intros T operation. by rewrite Heq.
Qed.

(** ** Only the factory fills the pool *)






(** ** The statements at work on the sample pools *)

(** The constructor on the test's options: no floor, room for one. *)
Example test_pool_config :
  Engine.cfg test_pool.2 = Engine.Config 0 1 None
  ∧ name test_pool.1 = OStr "pgPool-k3x9".
Proof. by vm_compute. Qed.

(** "should wait to acquire if all used up": the counters the test reads. *)
Example wait_to_acquire_counters :
  let s0 := started test_pool in
  let s1 := (PgPool_acquire test_backend test_pool.1 None s0).1 in
  let s2 := (PgPool_release (VClient 0) s1).1 in
  let s3 := (PgPool_acquire test_backend test_pool.1 None s2).1 in
  let s4 := (PgPool_acquire test_backend test_pool.1 None s3).1 in
  (availableCount s0, getPoolSize s0, pendingCount s0) = (0, 0, 0)
  ∧ (availableCount s1, getPoolSize s1, pendingCount s1) = (0, 1, 0)
  ∧ availableCount s2 = 1
  ∧ (availableCount s3, getPoolSize s3, pendingCount s3) = (0, 1, 0)
  ∧ (availableCount s4, getPoolSize s4, pendingCount s4) = (0, 1, 1).
Proof. by vm_compute. Qed.

(** "should get pool stats": a fresh pool with a floor of two counts the
    two creations in flight in its size, with nothing available yet. *)
Example fresh_pool_status :
  let created := PgPool "k3x9" (test_options 2 4) in
  (status_size (status created.1 (started created)),
   status_available (status created.1 (started created)),
   status_pending (status created.1 (started created))) = (2, 0, 0).
Proof. by vm_compute. Qed.

(** C1, as stated, fails: right after an acquire on an empty pool with room
    for one resource, the creation in flight counts in the size, while
    nothing is available and nothing is checked out. *)
Lemma counters_during_creation :
  let e := (Engine.run test_pool.2 [Engine.Acquire 0]).1 in
  let s := Sys e (World 0 []) [] in
  ¬ (availableCount s + Engine.borrowed e = getPoolSize s
     ∧ 0 ≤ availableCount s
     ∧ availableCount s ≤ getPoolSize s
     ∧ getPoolSize s ≤ Engine.max (Engine.cfg e)).
Proof. vm_compute. intros [Heq _]. discriminate Heq. Qed.

(** C2, as stated, fails: on the pool with room for one resource, the
    error value of a first failed acquire stays checked out, so a second
    acquire against the same failing backend is queued: it is not settled
    and [create] is not called again. *)
Lemma second_acquire_makes_no_attempt :
  let s1 := (PgPool_acquire unreachable_backend test_pool.1 None
               (started test_pool)).1 in
  always_fails unreachable_backend
  ∧ (PgPool_acquire unreachable_backend test_pool.1 None s1).2 = Unsettled
  ∧ (PgPool_acquire unreachable_backend test_pool.1 None s1).2
    ≠ Rejected (VError "Error" "CONN_FAILED")
  ∧ attempts (wld (PgPool_acquire unreachable_backend test_pool.1 None s1).1)
    = attempts (wld s1).
Proof.
  intros s1. split; [intros opts n; by eexists|].
  assert ((PgPool_acquire unreachable_backend test_pool.1 None s1).2 = Unsettled)
    as Hout by reflexivity.
  split; [exact Hout|]. split; [by rewrite Hout|reflexivity].
Qed.

(** C3, as stated, fails: on a pool whose injected logger has no callable
    [error], the engine yields the "CONN_FAILED" error and [acquire]
    rejects with a [TypeError] instead of that error. *)
Lemma acquire_with_broken_logger_rejects_otherwise :
  (pool_acquire unreachable_backend broken_pool.1 None (started broken_pool)).2
  = Fulfilled (VError "Error" "CONN_FAILED")
  ∧ (PgPool_acquire unreachable_backend broken_pool.1 None (started broken_pool)).2
    = Rejected (VError "TypeError" "this.logger.error is not a function")
  ∧ (PgPool_acquire unreachable_backend broken_pool.1 None (started broken_pool)).2
    ≠ Rejected (VError "Error" "CONN_FAILED").
Proof.
  assert ((PgPool_acquire unreachable_backend broken_pool.1 None
             (started broken_pool)).2
          = Rejected (VError "TypeError" "this.logger.error is not a function"))
    as Hout by reflexivity.
  split; [reflexivity|]. split; [exact Hout|by rewrite Hout].
Qed.

(** C4, as stated, fails in its last part: on a pool whose injected logger
    has no callable [error], a failed backend query is released once, but
    the caller gets a [TypeError] and not the backend's error. *)
Lemma query_with_broken_logger_raises_otherwise :
  (pool_acquire test_backend broken_pool.1 None (started broken_pool)).2
  = Fulfilled (VClient 0)
  ∧ query_result test_backend 0 "SEL;"
    = Rejected (VError "error" "syntax error at or near")
  ∧ (PgPool_query test_backend broken_pool.1 "SEL;" (started broken_pool)).2
    = Rejected (VError "TypeError" "this.logger.error is not a function")
  ∧ (PgPool_query test_backend broken_pool.1 "SEL;" (started broken_pool)).2
    ≠ Rejected (VError "error" "syntax error at or near").
Proof.
  assert ((PgPool_query test_backend broken_pool.1 "SEL;" (started broken_pool)).2
          = Rejected (VError "TypeError" "this.logger.error is not a function"))
    as Hout by reflexivity.
  split; [reflexivity|]. split; [reflexivity|].
  split; [exact Hout|by rewrite Hout].
Qed.

(** C6, as stated, fails for its example of a resource from a failed
    acquire: the error value a failed acquire rejected with is checked
    out, and releasing it is accepted and changes the available count. *)
Lemma release_of_failed_acquire_error_is_accepted :
  let failed := PgPool_acquire unreachable_backend test_pool.1 None
                  (started test_pool) in
  failed.2 = Rejected (VError "Error" "CONN_FAILED")
  ∧ (PgPool_release (VError "Error" "CONN_FAILED") failed.1).2
    = Fulfilled VUndefined
  ∧ (PgPool_release (VError "Error" "CONN_FAILED") failed.1).2
    ≠ Rejected (VError "Error" "Resource not currently part of this pool")
  ∧ availableCount failed.1 = 0
  ∧ availableCount (PgPool_release (VError "Error" "CONN_FAILED") failed.1).1 = 1.
Proof.
  intros failed.
  assert ((PgPool_release (VError "Error" "CONN_FAILED") failed.1).2
          = Fulfilled VUndefined) as Hout by reflexivity.
  split; [reflexivity|]. split; [exact Hout|].
  split; [by rewrite Hout|]. split; reflexivity.
Qed.

(** C8, as stated, fails: on a pool whose injected logger has no callable
    [error], a [client.end] that throws makes the [catch] block throw in
    turn, and the promise of [factory.destroy] is rejected. *)
Lemma destroy_with_broken_logger_rejects :
  end_result unclosable_backend 0 = EndThrows (VError "Error" "socket hang up")
  ∧ (factory_destroy unclosable_backend broken_pool.1 (VClient 0) (World 0 [])).2
    = Rejected (VError "TypeError" "this.logger.error is not a function").
Proof. split; reflexivity. Qed.

Lemma acquire_conn_failed_after_three_attempts_witness :
  always_fails unreachable_backend
  ∧ (PgPool_acquire unreachable_backend test_pool.1 None (started test_pool)).2
    = Rejected (VError "Error" "CONN_FAILED")
  ∧ attempts (wld (PgPool_acquire unreachable_backend test_pool.1 None
                     (started test_pool)).1) = 3.
Proof.
  assert (always_fails unreachable_backend) as Hdead.
  { intros opts n. eexists. reflexivity. }
  split; [exact Hdead|].
  destruct (acquire_conn_failed_after_three_attempts unreachable_backend
              test_pool.1 None (started test_pool) Hdead)
    as (_ & _ & Hout & Hn).
  - reflexivity.
  - vm_compute. lia.
  - split; [exact Hout|exact Hn].
Defined.

Lemma query_releases_exactly_once_witness :
  PgPool_query test_backend test_pool.1 "SEL;" (started test_pool)
  = (Sys (Engine.Make (Engine.Config 0 1 None) [VClient 0] [] [] [] 1)
         (World 1 [Connect 0; ClientQuery 0 "SEL;"; PoolRelease (VClient 0);
                   Logger "error" noop "Errored query"; Debug "Errored query"])
         [],
     Rejected (VError "error" "syntax error at or near")).
Proof.
  destruct (query_releases_exactly_once test_backend test_pool.1 "SEL;"
              (started test_pool)
              (pool_acquire test_backend test_pool.1 None (started test_pool)).1
              0)
    as (e & out & Hrel & Hq).
  - vm_compute. reflexivity.
  - vm_compute in Hrel. injection Hrel as <- <-.
    vm_compute in Hq. vm_compute. exact Hq.
Defined.

Lemma query_on_sentinel_never_releases_witness :
  PgPool_query unreachable_backend test_pool.1 "SELECT 1;" (started test_pool)
  = ((pool_acquire unreachable_backend test_pool.1 None (started test_pool)).1,
     Rejected (VError "TypeError" "client.query is not a function"))
  ∧ CONN_FAILED
    ∈ Engine.active
        (pool (pool_acquire unreachable_backend test_pool.1 None
                 (started test_pool)).1).
Proof.
  apply (query_on_sentinel_never_releases unreachable_backend test_pool.1
           "SELECT 1;" (started test_pool)).
  vm_compute. reflexivity.
Defined.

Lemma release_of_non_member_rejects_witness :
  let s := (PgPool_acquire test_backend test_pool.1 None (started test_pool)).1 in
  Engine.active (pool s) = [VClient 0]
  ∧ (PgPool_release (VClient 7) s).2
    = Rejected (VError "Error" "Resource not currently part of this pool")
  ∧ getPoolSize (PgPool_release (VClient 7) s).1 = 1
  ∧ availableCount (PgPool_release (VClient 7) s).1 = 0.
Proof.
  intros s.
  assert (Engine.active (pool s) = [VClient 0]) as Hactive by reflexivity.
  assert (Engine.idle (pool s) = []) as Hidle by reflexivity.
  split; [exact Hactive|].
  destruct (release_of_non_member_rejects (VClient 7) s)
    as (Hout & _ & Hsize & Havailable & _).
  - unfold pooled_by_factory. rewrite Hidle, Hactive.
    apply Forall_cons. split; [|apply Forall_nil_2].
    right. exists 0. reflexivity.
  - right. rewrite Hactive. intros Hin.
    apply list_elem_of_singleton in Hin. discriminate Hin.
  - split; [exact Hout|]. split; [exact Hsize|exact Havailable].
Defined.

Lemma factory_destroy_never_rejects_witness :
  logger_raises test_pool.1 "error" = None
  ∧ (factory_destroy unclosable_backend test_pool.1 (VClient 0) (World 0 [])).2
    = Unsettled.
Proof.
  assert (logger_raises test_pool.1 "error" = None) as Hok by reflexivity.
  split; [exact Hok|].
  destruct (factory_destroy_never_rejects unclosable_backend test_pool.1
              (VClient 0) (World 0 []) Hok) as (_ & Hout & _).
  exact Hout.
Defined.

Lemma queued_acquire_times_out_once_witness :
  let c := Engine.Config 1 1 (Some 1) in
  let e1 := (Engine.run (Engine.createPool c)
               [Engine.CreateDone 0 (VClient 0); Engine.Acquire 0;
                Engine.Acquire 0]).1 in
  (Engine.step e1 (Engine.Timeout 1)).2
  = [(1, Rejected (VError "TimeoutError" "ResourceRequest timed out"))]
  ∧ (1 ∉ fst <$> (Engine.run (Engine.step e1 (Engine.Timeout 1)).1
                    [Engine.Release (VClient 0)]).2).
Proof.
  intros c e1.
  destruct (queued_acquire_times_out_once c
              [Engine.CreateDone 0 (VClient 0); Engine.Acquire 0] 0 []
              [Engine.Release (VClient 0)] test_pool.1 (started test_pool))
    as (Hout & _ & _ & _ & Hnever).
  - reflexivity.
  - eexists. reflexivity.
  - vm_compute. left.
  - split; [exact Hout|exact Hnever].
Defined.

Lemma constructor_ignores_other_keys_witness :
  agree_on_kept (test_options 2 4) (noisy_options 2 4)
  ∧ PgPool "k3x9" (test_options 2 4) = PgPool "k3x9" (noisy_options 2 4).
Proof.
  assert (agree_on_kept (test_options 2 4) (noisy_options 2 4)) as Hagree.
  { intros key Hkey.
    repeat (apply elem_of_cons in Hkey as [->|Hkey]); [by vm_compute..|].
    by apply elem_of_nil in Hkey. }
  split; [exact Hagree|].
  exact (proj1 (constructor_ignores_other_keys "k3x9" _ _ Hagree)).
Defined.

(** * Further properties of [index.js] *)

(** ** [injectLogger] *)

Lemma default_methods_lookup method :
  method ∈ logger_methods →
  (list_to_map [("log", noop); ("debug", noop); ("info", noop);
                ("warn", noop); ("error", noop)] : gmap string optval) !! method
  = Some noop.
Proof.
  intros Hin. unfold logger_methods in Hin.
  repeat (apply elem_of_cons in Hin as [->|Hin]); [by vm_compute..|].
  by apply elem_of_nil in Hin.
Qed.

Lemma own_fields_truthy logger key v :
  own_fields logger !! key = Some v → truthy logger = true.
Proof. by destruct logger. Qed.

Lemma injectLogger_reaches_given logger key v :
  own_fields logger !! key = Some v →
  injectLogger logger !! key = Some v.
Proof.
  intros Hown. unfold injectLogger.
  rewrite (own_fields_truthy _ _ _ Hown).
  by apply lookup_union_Some_l.
Qed.

(** X1.  Whatever is passed as logger (nothing, a falsy value, an object
    with some methods), each of [log], [debug], [info], [warn] and [error]
    that the argument does not carry itself is the no-op function in the
    injected logger. *)
Theorem injectLogger_fills_missing_methods logger method :
  method ∈ logger_methods →
  own_fields logger !! method = None →
  injectLogger logger !! method = Some noop.
Proof.
  intros Hin Hnone. unfold injectLogger.
  rewrite lookup_union_r.
  - by apply default_methods_lookup.
  - by destruct (truthy logger).
Qed.

(** X2.  Every property the given logger object carries, a method named
    like a default or any other key, is kept as it is in the injected
    logger: the defaults never override it, and the injected logger has no
    key besides the logger's own and the five method names. *)
Theorem injectLogger_keeps_given_methods logger key v :
  own_fields logger !! key = Some v →
  injectLogger logger !! key = Some v
  ∧ dom (injectLogger logger)
    = dom (own_fields logger) ∪ list_to_set logger_methods.
Proof.
  intros Hown. split; [by apply injectLogger_reaches_given|].
  unfold injectLogger. rewrite (own_fields_truthy _ _ _ Hown).
  by rewrite dom_union_L, dom_list_to_map_L.
Qed.

(** ** [create] *)

Lemma create_attempts B opts w : attempts (create B opts w).1 = S (attempts w).
Proof.
  unfold create, new_Promise.
  destruct (get_field opts "native") as [native|e]; simpl; [|done].
  destruct (is_true native && negb (pg_has_native B)); simpl; [done|].
  by destruct (connect_result B opts (attempts w)).
Qed.

Lemma create_connects B opts w :
  connects_directly B opts →
  create B opts w
  = (World (S (attempts w)) (journal w ++ [Connect (attempts w)]),
     connect_answer (attempts w) (connect_result B opts (attempts w))).
Proof.
  intros (native & Hget & Hgo). unfold create, new_Promise.
  rewrite Hget, Hgo. by destruct (connect_result B opts (attempts w)).
Qed.

(** X3.  When the options ask for the native bindings ([native: true]) and
    [pg] has none, [create] rejects with the error "Native bindings not
    available. Make sure pg-native is installed." and never calls
    [client.connect], whatever the backend would have answered. *)
Theorem create_rejects_without_native_bindings B fields w :
  fields !! "native" = Some (OBool true) →
  pg_has_native B = false →
  create B (OObj fields) w
  = (World (S (attempts w)) (journal w),
     Rejected (VError "Error"
       "Native bindings not available. Make sure pg-native is installed.")).
Proof.
  intros Hnative Hpg. unfold create, new_Promise. simpl.
  by rewrite Hnative, Hpg.
Qed.

(** ** [factory.create] *)

Lemma create_callback_connects B opts createAttempts w :
  connects_directly B opts → createAttempts < 3 →
  create_callback B opts (createAttempts, w)
  = ((S createAttempts,
      World (S (attempts w)) (journal w ++ [Connect (attempts w)])),
     connect_answer (attempts w) (connect_result B opts (attempts w))).
Proof.
  intros Hgo Hlt. unfold create_callback.
  destruct (Nat.ltb_spec 3 (S createAttempts)) as [?|_]; [lia|].
  by rewrite (create_connects _ _ _ Hgo).
Qed.

Lemma constructor_fields random options :
  name (PgPool random options).1
  = (if truthy (default OUndefined (own_fields options !! "name"))
     then default OUndefined (own_fields options !! "name")
     else OStr ("pgPool-" +:+ random))
  ∧ pgOptions (PgPool random options).1
    = default OUndefined (own_fields options !! "pgOptions")
  ∧ poolOptions (PgPool random options).1
    = default OUndefined (own_fields options !! "poolOptions")
  ∧ logger (PgPool random options).1
    = injectLogger (default OUndefined (own_fields options !! "logger")).
Proof.
  unfold PgPool. cbn [fst name pgOptions poolOptions logger].
  rewrite !pick_lookup.
  rewrite !decide_True; [done|..];
    repeat first [apply list_elem_of_here | apply list_elem_of_further].
Qed.

(** X4.  A pool constructed from options without [pgOptions] never reaches
    the database: each of the three [create] calls of [factory.create]
    fails on reading [pgOptions.native], no [client.connect] is made, and
    the factory yields the "CONN_FAILED" error value. *)
Theorem factory_create_without_pgOptions B random options w :
  own_fields options !! "pgOptions" = None →
  factory_create B (PgPool random options).1 w
  = (World (attempts w + 3)
           (journal w
            ++ [Debug "Max conn createAttempts reached: %s, resolving to error:"]),
     Fulfilled (VError "Error" "CONN_FAILED")).
Proof.
  intros Hnone. unfold factory_create.
  destruct (constructor_fields random options) as (_ & -> & _).
  rewrite Hnone. cbn.
  by replace (S (S (S (attempts w)))) with (attempts w + 3) by lia.
Qed.

(** X5.  [factory.create] stops at the first connection attempt that does
    not fail: when the first [k] attempts (k below 3) end in an error and
    the next one connects, the factory yields that client after exactly
    [k + 1] calls of [create]; when the next one never answers, the factory
    never settles and makes no further attempt. *)
Theorem factory_create_first_answer_wins B this w k answer :
  connects_directly B (pgOptions this) →
  k < 3 →
  (∀ j, j < k →
        ∃ err, connect_result B (pgOptions this) (attempts w + j) = ConnError err) →
  connect_result B (pgOptions this) (attempts w + k) = answer →
  (∀ err, answer ≠ ConnError err) →
  (factory_create B this w).2
  = match answer with
    | ConnReady => Fulfilled (VClient (attempts w + k))
    | _ => Unsettled
    end
  ∧ attempts (factory_create B this w).1 = attempts w + k + 1.
Proof.
  intros Hgo Hk Hfail Hans Hok. unfold factory_create.
  assert (∀ w' c, c < 3 → attempts w' = attempts w + k →
            ∀ more, retry (create_callback B (pgOptions this))
                          (S (S more)) (c, w')
            = ((S c, World (S (attempts w'))
                           (journal w' ++ [Connect (attempts w')])),
               match answer with
               | ConnReady => Fulfilled (VClient (attempts w + k))
               | _ => Unsettled
               end)) as Hstop.
  { intros w' c Hc Hw' more. cbn [retry].
    rewrite (create_callback_connects _ _ _ _ Hgo Hc), Hw', Hans.
    destruct answer as [|err|]; simpl; [done| |done]. by destruct (Hok err). }
  assert (∀ w' c j, c < 3 → j < k → attempts w' = attempts w + j →
            ∀ more, retry (create_callback B (pgOptions this))
                          (S (S more)) (c, w')
            = retry (create_callback B (pgOptions this)) (S more)
                    (S c, World (S (attempts w'))
                                (journal w' ++ [Connect (attempts w')])))
    as Hnext.
  { intros w' c j Hc Hj Hw' more. cbn [retry].
    rewrite (create_callback_connects _ _ _ _ Hgo Hc), Hw'.
    by destruct (Hfail j Hj) as [err ->]. }
  destruct k as [|[|[|k]]]; [| | |lia].
  - rewrite (Hstop w 0); [|lia|lia]. simpl. split; [done|lia].
  - rewrite (Hnext w 0 0); [|lia..].
    rewrite Hstop; [|lia|simpl; lia]. simpl. split; [done|lia].
  - rewrite (Hnext w 0 0); [|lia..].
    rewrite (Hnext _ 1 1); [|lia|lia|simpl; lia].
    rewrite Hstop; [|lia|simpl; lia]. simpl. split; [done|lia].
Qed.

(** X6.  Whatever the backend does, one call of [factory.create] is never
    rejected and calls [create] at least once and at most three times: of
    the ten runs the retry helper allows, at most four are ever used. *)
Theorem factory_create_is_bounded B this w :
  (∀ err, (factory_create B this w).2 ≠ Rejected err)
  ∧ attempts w < attempts (factory_create B this w).1
  ∧ attempts (factory_create B this w).1 ≤ attempts w + 3.
Proof.
  split; [intros err; apply factory_create_never_rejects|].
  unfold factory_create. cbn [retry]. unfold create_callback at 1. cbn.
  pose proof (create_attempts B (pgOptions this) w) as H1.
  destruct (create B (pgOptions this) w) as [w1 [v|e|]]; cbn in *; [lia| |lia].
  unfold create_callback at 1. cbn.
  pose proof (create_attempts B (pgOptions this) w1) as H2.
  destruct (create B (pgOptions this) w1) as [w2 [v|e'|]]; cbn in *; [lia| |lia].
  unfold create_callback at 1. cbn.
  pose proof (create_attempts B (pgOptions this) w2) as H3.
  destruct (create B (pgOptions this) w2) as [w3 [v|e''|]]; cbn in *; lia.
Qed.

(** X7.  The ceiling of three attempts belongs to each call of
    [factory.create], not to the pool: against a backend that always
    fails, two calls in a row each yield the "CONN_FAILED" error value and
    together call [create] six times. *)
Theorem factory_create_ceiling_is_per_call B this w :
  always_fails B →
  (factory_create B this w).2 = Fulfilled (VError "Error" "CONN_FAILED")
  ∧ (factory_create B this (factory_create B this w).1).2
    = Fulfilled (VError "Error" "CONN_FAILED")
  ∧ attempts (factory_create B this (factory_create B this w).1).1
    = attempts w + 6.
Proof.
  intros Hdead.
  destruct (factory_create_gives_up B this w Hdead) as [j1 ->]. cbn [fst snd].
  destruct (factory_create_gives_up B this (World (attempts w + 3) j1) Hdead)
    as [j2 ->].
  cbn. repeat split; try done. lia.
Qed.

(** ** [query] and [acquire] on the paths that keep the resource *)

(** X8.  When the acquire inside [query] yields a connected client and the
    backend never settles the query, [query] never settles either and the
    client is not released: the engine is left as the acquire left it, with
    the client checked out, and the journal gains the query only. *)
Theorem query_holds_client_while_backend_hangs B this q s s1 id :
  pool_acquire B this None s = (s1, Fulfilled (VClient id)) →
  query_result B id q = Unsettled →
  PgPool_query B this q s
  = (Sys (pool s1)
         (World (attempts (wld s1)) (journal (wld s1) ++ [ClientQuery id q]))
         (outbox s1),
     Unsettled)
  ∧ VClient id ∈ Engine.active (pool s1).
Proof.
  intros Hacq Hhang. split; [|by eapply pool_acquire_active].
  unfold PgPool_query, then_ at 1. rewrite Hacq.
  unfold query_callback, client_query, catch_, then_. by rewrite Hhang.
Qed.

(** X9.  When the engine yields an [Error] to [acquire], the facade
    rejects its caller (with that value when [logger.error] returns, with
    the logger's exception when it throws) and does nothing else to the
    pool: the engine is left as its own acquire left it, the error value
    is still checked out, and the journal gains the debug line and the
    logger's line only. *)
Theorem rejected_acquire_keeps_error_checked_out B this priority s s1 v :
  pool_acquire B this priority s = (s1, Fulfilled v) →
  instanceof_Error v = true →
  PgPool_acquire B this priority s
  = (Sys (pool s1)
         (World (attempts (wld s1))
                (journal (wld s1)
                 ++ [Debug "Couldn't acquire connection to %j"]
                 ++ logger_lines this "error" "Couldn't acquire connection to %j"))
         (outbox s1),
     Rejected (default v (logger_raises this "error")))
  ∧ v ∈ Engine.active (pool s1).
Proof.
  intros Hacq Herr. split; [|by eapply pool_acquire_active].
  unfold PgPool_acquire, then_. rewrite Hacq.
  by apply acquire_callback_on_error.
Qed.

(** X10.  Releasing the error value a failed acquire left checked out is
    accepted like the release of a client, and, with nothing idle and
    nobody waiting, the next [acquire] is served that same value without
    any call of [create]: it rejects with it when [logger.error] returns,
    and with the logger's exception when it throws. *)
Theorem released_error_is_served_again B this priority s v :
  v ∈ Engine.active (pool s) →
  instanceof_Error v = true →
  Engine.idle (pool s) = [] →
  Engine.waiting (pool s) = [] →
  (PgPool_release v s).2 = Fulfilled VUndefined
  ∧ (pool_acquire B this priority (PgPool_release v s).1).2 = Fulfilled v
  ∧ (PgPool_acquire B this priority (PgPool_release v s).1).2
    = Rejected (default v (logger_raises this "error"))
  ∧ attempts (wld (PgPool_acquire B this priority (PgPool_release v s).1).1)
    = attempts (wld s).
Proof.
  intros Hin Herr Hidle Hwait.
  unfold PgPool_release, pool_release, Engine.release.
  rewrite decide_True by done.
  unfold Engine.dispense. cbn [Engine.waiting]. rewrite Hwait, Hidle. cbn.
  unfold PgPool_acquire, then_, pool_acquire, Engine.acquire. cbn.
  by rewrite acquire_callback_on_error.
Qed.

(** ** The constructor and the getters *)

(** X11.  Every pool has a truthy name: a truthy [name] option is kept, and
    a missing or falsy one (undefined, null, the empty string, 0, false) is
    replaced by "pgPool-" followed by the random text. *)
Theorem pool_name_is_never_empty random options :
  truthy (getName (PgPool random options).1) = true
  ∧ getName (PgPool random options).1
    = (if truthy (default OUndefined (own_fields options !! "name"))
       then default OUndefined (own_fields options !! "name")
       else OStr ("pgPool-" +:+ random)).
Proof.
  unfold getName.
  destruct (constructor_fields random options) as (-> & _).
  split; [|done].
  by destruct (truthy (default OUndefined (own_fields options !! "name")))
    eqn:Hname.
Qed.

(** X12.  [getPgOptions] and [getPoolOptions] give back what the options
    object holds under [pgOptions] and [poolOptions], unchanged, and
    undefined when the key is absent or the options are not an object. *)
Theorem getters_return_given_options random options :
  getPgOptions (PgPool random options).1
  = default OUndefined (own_fields options !! "pgOptions")
  ∧ getPoolOptions (PgPool random options).1
    = default OUndefined (own_fields options !! "poolOptions").
Proof.
  unfold getPgOptions, getPoolOptions.
  by destruct (constructor_fields random options) as (_ & -> & -> & _).
Qed.

(** X13.  An [error] function injected through the [logger] option is the
    function that a failed query reaches: the query is rejected with the
    backend's error and its journal holds the call of exactly that
    function with "Errored query". *)
Theorem injected_logger_receives_query_error B random options l h q s s1 id err :
  own_fields options !! "logger" = Some l →
  own_fields l !! "error" = Some (OFun h) →
  pool_acquire B (PgPool random options).1 None s = (s1, Fulfilled (VClient id)) →
  query_result B id q = Rejected err →
  (PgPool_query B (PgPool random options).1 q s).2 = Rejected err
  ∧ Logger "error" (OFun h) "Errored query"
    ∈ journal (wld (PgPool_query B (PgPool random options).1 q s).1).
Proof.
  intros Hlogger Herror Hacq Hfail.
  assert (logger (PgPool random options).1 !! "error" = Some (OFun h)) as Hf.
  { destruct (constructor_fields random options) as (_ & _ & _ & ->).
    rewrite Hlogger. by apply injectLogger_reaches_given. }
  assert (PgPool_query B (PgPool random options).1 q s
          = query_callback B (PgPool random options).1 q (VClient id) s1) as ->.
  { unfold PgPool_query, then_. by rewrite Hacq. }
  destruct (query_callback_releases_once B (PgPool random options).1 q s1 id)
    as (e & out & _ & Hq); [by eapply pool_acquire_active|].
  rewrite Hfail in Hq. rewrite Hq.
  unfold logger_raises, logger_lines. rewrite Hf. cbn. split; [done|].
  rewrite elem_of_app. right. do 2 right. by left.
Qed.

(** ** The further properties at work on the sample data *)

Lemma injectLogger_fills_missing_methods_witness :
  own_fields custom_logger !! "log" = None
  ∧ injectLogger custom_logger !! "log" = Some noop.
Proof.
  assert (own_fields custom_logger !! "log" = None) as Hnone by reflexivity.
  split; [exact Hnone|].
  apply (injectLogger_fills_missing_methods custom_logger "log"); [|exact Hnone].
  unfold logger_methods. apply list_elem_of_here.
Defined.

Lemma injectLogger_keeps_given_methods_witness :
  injectLogger custom_logger !! "error" = Some (OFun 7).
Proof.
  apply (injectLogger_keeps_given_methods custom_logger "error" (OFun 7)).
  reflexivity.
Defined.

Lemma create_rejects_without_native_bindings_witness :
  (create test_backend (OObj {[ "native" := OBool true ]}) (World 0 [])).2
  = Rejected (VError "Error"
      "Native bindings not available. Make sure pg-native is installed.").
Proof.
  rewrite (create_rejects_without_native_bindings test_backend
             {[ "native" := OBool true ]} (World 0 [])); reflexivity.
Defined.

Lemma factory_create_without_pgOptions_witness :
  (factory_create test_backend (PgPool "k3x9" bare_options).1 (World 0 [])).2
  = Fulfilled (VError "Error" "CONN_FAILED").
Proof.
  rewrite (factory_create_without_pgOptions test_backend "k3x9" bare_options
             (World 0 [])); reflexivity.
Defined.

Lemma factory_create_first_answer_wins_witness :
  (factory_create flaky_backend test_pool.1 (World 0 [])).2
  = Fulfilled (VClient 2)
  ∧ attempts (factory_create flaky_backend test_pool.1 (World 0 [])).1 = 3.
Proof.
  apply (factory_create_first_answer_wins flaky_backend test_pool.1
           (World 0 []) 2 ConnReady).
  - exists OUndefined. split; reflexivity.
  - lia.
  - intros j Hj. eexists.
    destruct j as [|[|j]]; [reflexivity|reflexivity|lia].
  - reflexivity.
  - intros err. discriminate.
Defined.

Lemma factory_create_ceiling_is_per_call_witness :
  attempts (factory_create unreachable_backend test_pool.1
              (factory_create unreachable_backend test_pool.1 (World 0 [])).1).1
  = 6.
Proof.
  destruct (factory_create_ceiling_is_per_call unreachable_backend test_pool.1
              (World 0 [])) as (_ & _ & Hn).
  - intros opts n. eexists. reflexivity.
  - exact Hn.
Defined.

Lemma query_holds_client_while_backend_hangs_witness :
  (PgPool_query stalled_backend test_pool.1 "SELECT 1;" (started test_pool)).2
  = Unsettled
  ∧ VClient 0
    ∈ Engine.active
        (pool (PgPool_query stalled_backend test_pool.1 "SELECT 1;"
                 (started test_pool)).1).
Proof.
  destruct (query_holds_client_while_backend_hangs stalled_backend test_pool.1
              "SELECT 1;" (started test_pool)
              (pool_acquire stalled_backend test_pool.1 None (started test_pool)).1
              0) as (Hq & Hin).
  - vm_compute. reflexivity.
  - reflexivity.
  - rewrite Hq. split; [reflexivity|exact Hin].
Defined.

Lemma rejected_acquire_keeps_error_checked_out_witness :
  CONN_FAILED
  ∈ Engine.active
      (pool (PgPool_acquire unreachable_backend test_pool.1 None
               (started test_pool)).1).
Proof.
  destruct (rejected_acquire_keeps_error_checked_out unreachable_backend
              test_pool.1 None (started test_pool)
              (pool_acquire unreachable_backend test_pool.1 None
                 (started test_pool)).1
              CONN_FAILED) as (Hq & Hin).
  - vm_compute. reflexivity.
  - reflexivity.
  - rewrite Hq. exact Hin.
Defined.

Lemma released_error_is_served_again_witness :
  let s := (PgPool_acquire unreachable_backend test_pool.1 None
              (started test_pool)).1 in
  (PgPool_acquire unreachable_backend test_pool.1 None
     (PgPool_release CONN_FAILED s).1).2
  = Rejected CONN_FAILED
  ∧ attempts (wld (PgPool_acquire unreachable_backend test_pool.1 None
                     (PgPool_release CONN_FAILED s).1).1) = 3.
Proof.
  intros s.
  destruct (released_error_is_served_again unreachable_backend test_pool.1
              None s CONN_FAILED) as (_ & _ & Hout & Hn).
  - vm_compute. apply list_elem_of_here.
  - reflexivity.
  - reflexivity.
  - reflexivity.
  - split; [exact Hout|exact Hn].
Defined.

Lemma injected_logger_receives_query_error_witness :
  Logger "error" (OFun 7) "Errored query"
  ∈ journal (wld (PgPool_query test_backend logged_pool.1 "SEL;"
                    (started logged_pool)).1).
Proof.
  destruct (injected_logger_receives_query_error test_backend "k3x9"
              logged_options custom_logger 7 "SEL;"
              (started logged_pool)
              (pool_acquire test_backend logged_pool.1 None
                 (started logged_pool)).1
              0 (VError "error" "syntax error at or near")) as (_ & Hin).
  - reflexivity.
  - reflexivity.
  - vm_compute. reflexivity.
  - reflexivity.
  - exact Hin.
Defined.

(** ** What a pool can hold *)





